(** * Release orchestration for the golang.org/x module family

    A shallow embedding of the tagging workflow ([checkCycles],
    [checkCycles1], [BuildPlan], [planRepo], [MaybeTag], [nextMinor]) and of
    the gopls release workflow ([parseSemver], [prereleaseVersion],
    [currentGoplsPrerelease], [nextPrerelease], [isValidPrereleaseVersion],
    [executeAndMonitorChange]), followed by the properties proved of them.

    Go strings are byte sequences and are modelled by [string]; Go maps by
    stdpp's [gmap]; Go's [int] by [Z] with the 64-bit wrap-around written
    out ([wrap64]). *)

From Stdlib Require Import ZArith Lia Ascii String.
From stdpp Require Import gmap strings list fin_maps pretty.

Set Warnings "-register-all".

(** ** Data model *)

(** [TagRepo] contains information about a repo that can be tagged. *)
Record TagRepo := mkTagRepo {
  Name : string;        (* Gerrit project name, e.g. "tools" *)
  ModPath : string;     (* module path, e.g. "golang.org/x/tools" *)
  Deps : list string;   (* dependency module paths *)
  Version : string      (* after a tagging decision, the version to upgrade to *)
}.

#[global] Instance TagRepo_eq_dec : EqDecision TagRepo.
Proof. solve_decision. Defined.

(** The zero value of the struct: what indexing a Go map yields for a key
    that is not present. *)
Definition zeroTagRepo : TagRepo :=
  {| Name := ""; ModPath := ""; Deps := []; Version := "" |}.

(** ** Dependency graph: cycle detection *)

Module Cycles.

(** [reposByModule[repo.ModPath] = repo] for each repo, in order: a later
    repo with the same module path overwrites an earlier one. *)
Definition reposByModule (repos : list TagRepo) : gmap string TagRepo :=
  foldl (fun m repo => <[ModPath repo := repo]> m) ∅ repos.

(** The Go expression [reposByModule[dep]]. *)
Definition index (m : gmap string TagRepo) (dep : string) : TagRepo :=
  default zeroTagRepo (m !! dep).

(** The scan [for i, s := range stack[:len(stack)-1]] of [checkCycles1],
    where the stack already ends in [p]: every position [i] of the old stack
    holding [p] records the copy [stack[i:]]. *)
Fixpoint revisits (p : string) (stack : list string) : list (list string) :=
  match stack with
  | [] => []
  | s :: rest =>
      (if decide (s = p) then [s :: rest ++ [p]] else []) ++ revisits p rest
  end.

(** [checkCycles1]. The recursion of the source is not structural; [fuel]
    bounds the number of nested activations and [None] means it ran out.
    [checkCycles1_enough_fuel] shows what fuel suffices. *)
Fixpoint checkCycles1 (fuel : nat) (m : gmap string TagRepo)
    (repo : TagRepo) (stack : list string) : option (list (list string)) :=
  match fuel with
  | O => None
  | S fuel' =>
      let stack' := stack ++ [ModPath repo] in
      let cycles := revisits (ModPath repo) stack in
      if decide (length cycles ≠ 0) then Some cycles
      else
        subs ← mapM (fun dep => checkCycles1 fuel' m (index m dep) stack')
                    (Deps repo);
        Some (cycles ++ mjoin subs)
  end.

(** One iteration of the loop that keeps the shortest cycles. *)
Definition keepShortest (shortestCycles : list (list string))
    (cycle : list string) : list (list string) :=
  match shortestCycles with
  | [] => [cycle]
  | first :: _ =>
      if decide (length cycle < length first) then [cycle]
      else if decide (length first = length cycle) then
        if decide (cycle ∈ shortestCycles) then shortestCycles
        else shortestCycles ++ [cycle]
      else shortestCycles
  end.

Definition shortest (cycles : list (list string)) : list (list string) :=
  foldl keepShortest [] cycles.

(** Go visits the entries of a map in an unspecified order: a run of
    [for _, repo := range reposByModule] is determined by the order in
    which it meets the values, any permutation of them. *)
Definition range_order (m : gmap string TagRepo) (order : list TagRepo) : Prop :=
  order ≡ₚ (map_to_list m).*2.

(** The variable [cycles] of [checkCycles] after the first loop. *)
Definition discovered (fuel : nat) (m : gmap string TagRepo)
    (order : list TagRepo) : option (list (list string)) :=
  found ← mapM (fun repo => checkCycles1 fuel m repo []) order;
  Some (mjoin found).

Definition checkCyclesFuel (fuel : nat) (order : list TagRepo)
    (repos : list TagRepo) : option (list (list string)) :=
  shortest <$> discovered fuel (reposByModule repos) order.

(** [checkCycles] returns all the shortest dependency cycles in [repos];
    [order] is the order in which the run ranges over the map. *)
Definition checkCycles (order : list TagRepo) (repos : list TagRepo)
    : option (list (list string)) :=
  checkCyclesFuel (S (size (reposByModule repos))) order repos.


(** *** The dependency graph the map describes *)

(** Module [a], present in the map, lists [b] among its dependencies. *)
Definition edge (m : gmap string TagRepo) (a b : string) : Prop :=
  ∃ r, m !! a = Some r ∧ b ∈ Deps r.

Definition has_cycle (m : gmap string TagRepo) : Prop := ∃ a, tc (edge m) a a.
Definition acyclic (m : gmap string TagRepo) : Prop := ∀ a, ¬ tc (edge m) a a.

(** Every value sits under its own module path (true of [reposByModule]). *)
Definition keyed (m : gmap string TagRepo) : Prop :=
  ∀ k r, m !! k = Some r → ModPath r = k.

(** What a walk can be called on: a module of the map or a module without
    dependencies (the zero value stands for an absent module). *)
Definition callable (m : gmap string TagRepo) (repo : TagRepo) : Prop :=
  m !! ModPath repo = Some repo ∨ Deps repo = [].


(** From [p] the graph reaches a cycle. *)
Definition loops (m : gmap string TagRepo) (p : string) : Prop :=
  ∃ q, rtc (edge m) p q ∧ tc (edge m) q q.

(** Every dependency of every module of the map is itself in the map. *)
Definition closed (m : gmap string TagRepo) : Prop :=
  ∀ k r dep, m !! k = Some r → dep ∈ Deps r → is_Some (m !! dep).

(** What the second loop of [checkCycles] maintains: after the cycles [pre]
    have been seen, [acc] holds, without repetition, exactly the cycles of
    [pre] of minimum length. *)
Definition shortest_inv (acc pre : list (list string)) : Prop :=
  NoDup acc ∧ (acc = [] → pre = []) ∧
  ∀ c, c ∈ acc ↔ c ∈ pre ∧ ∀ d, d ∈ pre → length c ≤ length d.

End Cycles.

(** ** Errors

    One constructor for each place where the source builds an error with
    [fmt.Errorf], carrying what the message is formatted from; [ErrExternal]
    stands for an error returned by a collaborator (Gerrit, Cloud Build). *)
Inductive error :=
  | ErrExternal (msg : string)
  (* "failed to progress the plan: todo: %v" *)
  | ErrFailedToProgress (missing : list string)
  (* "no semver tags found in %v" *)
  | ErrNoSemverTags (tags : list string)
  (* "reading project %v tag %v: %v" *)
  | ErrReadingTag (project tag : string) (err : error)
  (* "couldn't pick next version for %v: %v" *)
  | ErrPickNextVersion (project : string) (err : error)
  (* "malformatted version %q" *)
  | ErrMalformatted (version : string)
  (* "malformatted version %q (%v)", from strconv.Atoi *)
  | ErrMalformattedNumber (version : string)
  (* "failed to list tags for tools repo: %w" *)
  | ErrListTags (err : error)
  (* "the input %q version does not follow semantic version schema" *)
  | ErrNotSemver (version : string)
  (* "invalid semantic version %q" *)
  | ErrInvalidSemver (version : string)
  (* "the input %q version does not contain any pre-release version." *)
  | ErrNoPrerelease (version : string)
  (* `pre-release version does not contain any "."` *)
  | ErrPreNoDot
  (* `pre-release version contains %v "."` *)
  | ErrPreDots (dots : Z)
  (* "failed to convert pre-release version to int %q: %w" *)
  | ErrPreNotInt
  (* "the pre-release version should be larger than 0: %v" *)
  | ErrPreNotPositive (pre : Z)
  (* "this version has been released, the release tag %s already exists." *)
  | ErrReleased (releaseTag : string)
  (* "failed to figure out the current prerelease version for gopls v%v.%v.%v" *)
  | ErrCurrentPrerelease (major minor patch : Z)
  (* "there is a newer pre-release version available: %v.%v.%v-pre.%v" *)
  | ErrNewerPrerelease (major minor patch current : Z)
  (* "input pre-release version %s is not yet available. Latest available is
     %v.%v.%v-pre.%v" *)
  | ErrNotYetAvailable (version : string) (major minor patch current : Z)
  (* "x/tools branch %s's head commit is %s, but tag %s points to revision %s" *)
  | ErrHeadMismatch (branch head tag revision : string)
  (* "file name %q contains '" *)
  | ErrFileNameQuote (file : string).

(** ** Readiness-driven plan construction *)

Module Plan.

(** The workflow engine is a collaborator. A definition is modelled by the
    tasks registered so far; a [Value] names the output of a registered task
    (or a constant), with the values it consumes and the ones it runs
    after. *)
Inductive Value :=
  | Const (s : string)
  | ConstRepo (repo : TagRepo)
  | Slice (vs : list Value)
  | Task (name : string) (args after : list Value).

(** [wf.TaskN(wd, name, f, args..., wf.After(after...))]: registers the task
    under the definition's name prefix and returns its output value. *)
Definition addTask (wd : list Value) (prefix name : string)
    (args after : list Value) : list Value * Value :=
  let t := Task (prefix +:+ name) args after in (wd ++ [t], t).

(** [planRepo] returns a Value containing the tagged repository's
    information, or nil, false if its dependencies haven't been planned yet.
    [wd.Sub(repo.Name)] shares the tasks of [wd] and extends the prefix. *)
Definition planRepo (wd : list Value) (repo : TagRepo)
    (updated : gmap string Value) : list Value * option Value :=
  match mapM (fun repoDeps => updated !! repoDeps) (Deps repo) with
  | None => (wd, None)
  | Some deps =>
      let prefix := Name repo +:+ ": " in
      let repoName := Const (Name repo) in
      let branch := Const "master" in
      let '(wd, head) := addTask wd prefix "read branch head" [repoName; branch] [] in
      let '(wd, tagCommit) :=
        if decide (length deps ≠ 0) then
          let '(wd, gomod) :=
            addTask wd prefix "generate updated go.mod"
                    [ConstRepo repo; Slice deps; head] [] in
          let '(wd, cl) :=
            addTask wd prefix "mail updated go.mod" [repoName; gomod] [] in
          addTask wd prefix "wait for submit" [cl; Const ""] []
        else (wd, head) in
      let '(wd, green) :=
        addTask wd prefix "wait for green post-submit" [repoName; tagCommit] [] in
      let '(wd, tagged) :=
        addTask wd prefix "tag if appropriate" [ConstRepo repo; tagCommit] [green] in
      (wd, Some tagged)
  end.

(** One pass [for _, repo := range repos] of [BuildPlan]. *)
Fixpoint planPass (wd : list Value) (repos : list TagRepo)
    (updated : gmap string Value) (progress : bool)
    : list Value * gmap string Value * bool :=
  match repos with
  | [] => (wd, updated, progress)
  | repo :: rest =>
      match updated !! ModPath repo with
      | Some _ => planPass wd rest updated progress
      | None =>
          match planRepo wd repo updated with
          | (wd', Some dep) =>
              planPass wd' rest (<[ModPath repo := dep]> updated) true
          | (_, None) => planPass wd rest updated progress
          end
      end
  end.

(** The names collected when no progress was made. *)
Fixpoint missing (repos : list TagRepo) (updated : gmap string Value)
    : list string :=
  match repos with
  | [] => []
  | r :: rest =>
      match updated !! ModPath r with
      | None => Name r :: missing rest updated
      | Some _ => missing rest updated
      end
  end.

(** What a run of [BuildPlan] leaves: the definition, the local map
    [updated] (kept to state what was planned) and the returned error. *)
Record outcome := mkOutcome {
  out_wd : list Value;
  out_updated : gmap string Value;
  out_err : option error
}.

(** The loop [for len(updated) != len(repos)]. It has no bound of its own
    in the source; [fuel] counts its iterations and [None] means it ran
    out. *)
Fixpoint BuildPlanLoop (fuel : nat) (wd : list Value) (repos : list TagRepo)
    (updated : gmap string Value) : option outcome :=
  match fuel with
  | O => None
  | S fuel' =>
      if decide (size updated ≠ length repos) then
        match planPass wd repos updated false with
        | (wd', updated', true) => BuildPlanLoop fuel' wd' repos updated'
        | (wd', updated', false) =>
            Some (mkOutcome wd' updated'
                    (Some (ErrFailedToProgress (missing repos updated'))))
        end
      else
        let allDeps := (map_to_list updated).*2 in
        let '(wd', _) := addTask wd "" "done" [] allDeps in
        Some (mkOutcome wd' updated None)
  end.

(** [BuildPlan] adds the tasks needed to update [repos] to [wd]. *)
Definition BuildPlan (wd : list Value) (repos : list TagRepo) : option outcome :=
  BuildPlanLoop (S (length repos)) wd repos ∅.

(** *** Notions used to state the properties of the plan *)

(** Module [a] of the list names [b] among its dependencies. *)
Definition depends (repos : list TagRepo) (a b : string) : Prop :=
  ∃ r, r ∈ repos ∧ ModPath r = a ∧ b ∈ Deps r.

(** No module reaches itself along dependencies. *)
Definition Acyclic (repos : list TagRepo) : Prop :=
  ∀ a, ¬ tc (depends repos) a a.

(** Every dependency names a module of the list. *)
Definition dependency_closed (repos : list TagRepo) : Prop :=
  ∀ r dep, r ∈ repos → dep ∈ Deps r → dep ∈ ModPath <$> repos.

(** The states in which [BuildPlan wd0 repos] starts a pass. *)
Inductive pass_state (wd0 : list Value) (repos : list TagRepo)
    : list Value → gmap string Value → Prop :=
  | ps_init : pass_state wd0 repos wd0 ∅
  | ps_step wd updated wd' updated' :
      pass_state wd0 repos wd updated →
      size updated ≠ length repos →
      planPass wd repos updated false = (wd', updated', true) →
      pass_state wd0 repos wd' updated'.

(** Only modules of the list are ever planned. *)
Definition planned_in (repos : list TagRepo) (updated : gmap string Value) : Prop :=
  ∀ k, is_Some (updated !! k) → k ∈ ModPath <$> repos.

End Plan.

(** ** Go primitives used by the version code

    The standard library and [golang.org/x/mod/semver] are collaborators of
    the repository; the functions below follow their documented behaviour
    on byte strings. *)

Module Go.

(** Go's [int] on the 64-bit platforms the tools run on. *)
Definition maxInt : Z := 2 ^ 63 - 1.
Definition minInt : Z := - 2 ^ 63.

(** Two's complement wrap-around of a 64-bit result. *)
Definition wrap64 (z : Z) : Z := (z + 2 ^ 63) `mod` 2 ^ 64 - 2 ^ 63.

Definition byte (c : ascii) : N := N_of_ascii c.

(** ['0' <= c && c <= '9'] *)
Definition isDigit (c : ascii) : bool :=
  ((48 <=? byte c) && (byte c <=? 57))%N.

Definition digitVal (c : ascii) : N := (byte c - 48)%N.

(** The length of the longest prefix of digits. *)
Fixpoint digitsPrefix (s : string) : nat :=
  match s with
  | String c rest => if isDigit c then S (digitsPrefix rest) else 0
  | EmptyString => 0
  end.

Fixpoint allDigits (s : string) : bool :=
  match s with
  | String c rest => isDigit c && allDigits rest
  | EmptyString => true
  end.

(** The number a string of digits denotes, most significant digit first. *)
Fixpoint digitsValue (acc : N) (s : string) : N :=
  match s with
  | String c rest => digitsValue (10 * acc + digitVal c)%N rest
  | EmptyString => acc
  end.

(** The slices [s[:n]] and [s[n:]]. *)
Fixpoint take (n : nat) (s : string) : string :=
  match n, s with
  | S n', String c rest => String c (take n' rest)
  | _, _ => ""
  end.

Fixpoint drop (n : nat) (s : string) : string :=
  match n, s with
  | S n', String c rest => drop n' rest
  | _, _ => s
  end.

(** [s[0] == c], with [s[1:]]. *)
Definition after (c : ascii) (s : string) : option string :=
  match s with
  | String c' rest => if bool_decide (c' = c) then Some rest else None
  | EmptyString => None
  end.

(** [strconv.Atoi]: an optional sign, then one or more decimal digits, no
    underscores; a value outside [int] is a range error. *)
Definition Atoi (s : string) : option Z :=
  let neg := bool_decide (is_Some (after "-" s)) in
  let digits :=
    match after "-" s, after "+" s with
    | Some rest, _ | None, Some rest => rest
    | None, None => s
    end in
  if negb (allDigits digits) || bool_decide (digits = "") then None
  else
    let n := Z.of_N (digitsValue 0 digits) in
    let z := if neg then (- n)%Z else n in
    if bool_decide (minInt ≤ z ≤ maxInt)%Z then Some z else None.

(** [%d] and [%v] of an [int]. *)
Definition formatInt (z : Z) : string := pretty z.

(** [strings.Index(s, sep) >= 0], for a one-byte separator. *)
Fixpoint indexByte (sep : ascii) (s : string) : option nat :=
  match s with
  | EmptyString => None
  | String c rest =>
      if bool_decide (c = sep) then Some 0 else S <$> indexByte sep rest
  end.

(** [strings.Cut(s, sep)] for a one-byte separator: the text before and
    after the first [sep], or [s], "" and false. *)
Fixpoint Cut (s : string) (sep : ascii) : string * string * bool :=
  match s with
  | EmptyString => ("", "", false)
  | String c rest =>
      if bool_decide (c = sep) then ("", rest, true)
      else let '(before, after, found) := Cut rest sep in
           (String c before, after, found)
  end.

(** [strings.Split(s, sep)] for a one-byte separator. *)
Fixpoint Split (s : string) (sep : ascii) : list string :=
  match s with
  | EmptyString => [""]
  | String c rest =>
      if bool_decide (c = sep) then "" :: Split rest sep
      else match Split rest sep with
           | first :: others => String c first :: others
           | [] => [String c ""]
           end
  end.

(** [strings.CutPrefix(s, prefix)]. *)
Fixpoint CutPrefix (s prefix : string) : option string :=
  match prefix, s with
  | EmptyString, _ => Some s
  | String p prefix', String c rest =>
      if bool_decide (c = p) then CutPrefix rest prefix' else None
  | String _ _, EmptyString => None
  end.

(** [strings.Contains(s, "'")] and the like, for one byte. *)
Definition ContainsByte (s : string) (c : ascii) : bool :=
  bool_decide (is_Some (indexByte c s)).

End Go.

(** ** Package [golang.org/x/mod/semver]

    The functions of the package that the repository calls ([IsValid],
    [Prerelease], [Compare]) with the unexported ones they are built from,
    after the package's source. Versions have the form
    vMAJOR[.MINOR[.PATCH[-PRERELEASE][+BUILD]]]. *)

Module Semver.
Import Go.

Record parsed := mkParsed {
  major : string;
  minor : string;
  patch : string;
  short : string;
  prerelease : string;
  build : string
}.

(** [parseInt]: a run of digits without a leading zero (unless it is "0"),
    and the rest. *)
Definition parseInt (v : string) : option (string * string) :=
  match v with
  | EmptyString => None
  | String c _ =>
      if negb (isDigit c) then None
      else
        let i := digitsPrefix v in
        if bool_decide (c = "0"%char) && negb (i =? 1) then None
        else Some (take i v, drop i v)
  end.

(** ['A' <= c <= 'Z' || 'a' <= c <= 'z' || '0' <= c <= '9' || c == '-'] *)
Definition isIdentChar (c : ascii) : bool :=
  ((65 <=? byte c) && (byte c <=? 90) || (97 <=? byte c) && (byte c <=? 122)
   || (48 <=? byte c) && (byte c <=? 57) || (byte c =? 45))%N.

(** [isBadNum]: all digits, more than one, starting with '0'. *)
Definition isBadNum (v : string) : bool :=
  let i := digitsPrefix v in
  (i =? String.length v) && (1 <? i) &&
  match v with String c _ => bool_decide (c = "0"%char) | _ => false end.

(** [isNum]: all digits. *)
Definition isNum (v : string) : bool := digitsPrefix v =? String.length v.

(** The scanning loop of [parsePrerelease], after the hyphen: the number of
    bytes up to the end or to the first '+'; [ident] is the identifier read
    since the last dot ([v[start:i]]). *)
Fixpoint prereleaseLen (s : string) (ident : string) : option nat :=
  match s with
  | EmptyString =>
      if bool_decide (ident = "") || isBadNum ident then None else Some 0
  | String c rest =>
      if bool_decide (c = "+"%char) then
        if bool_decide (ident = "") || isBadNum ident then None else Some 0
      else if bool_decide (c = "."%char) then
        if bool_decide (ident = "") || isBadNum ident then None
        else S <$> prereleaseLen rest ""
      else if isIdentChar c then S <$> prereleaseLen rest (ident +:+ String c "")
      else None
  end.

Definition parsePrerelease (v : string) : option (string * string) :=
  rest ← after "-" v;
  n ← prereleaseLen rest "";
  Some (take (S n) v, drop (S n) v).

(** The scanning loop of [parseBuild], after the plus sign. *)
Fixpoint buildLen (s : string) (ident : string) : option nat :=
  match s with
  | EmptyString => if bool_decide (ident = "") then None else Some 0
  | String c rest =>
      if bool_decide (c = "."%char) then
        if bool_decide (ident = "") then None else S <$> buildLen rest ""
      else if isIdentChar c then S <$> buildLen rest (ident +:+ String c "")
      else None
  end.

Definition parseBuild (v : string) : option (string * string) :=
  rest ← after "+" v;
  n ← buildLen rest "";
  Some (take (S n) v, drop (S n) v).

Definition parse (v : string) : option parsed :=
  v ← after "v" v;
  '(major, v) ← parseInt v;
  if bool_decide (v = "") then Some (mkParsed major "0" "0" ".0.0" "" "")
  else
    v ← after "." v;
    '(minor, v) ← parseInt v;
    if bool_decide (v = "") then Some (mkParsed major minor "0" ".0" "" "")
    else
      v ← after "." v;
      '(patch, v) ← parseInt v;
      '(prerelease, v) ←
         (if bool_decide (is_Some (after "-" v)) then parsePrerelease v
          else Some ("", v));
      '(build, v) ←
         (if bool_decide (is_Some (after "+" v)) then parseBuild v
          else Some ("", v));
      if bool_decide (v = "") then
        Some (mkParsed major minor patch "" prerelease build)
      else None.

(** [IsValid] reports whether [v] is a valid semantic version string. *)
Definition IsValid (v : string) : bool := bool_decide (is_Some (parse v)).

(** [Prerelease] returns the prerelease suffix, with its hyphen; "" when
    [v] is invalid or has none. *)
Definition Prerelease (v : string) : string :=
  match parse v with Some pv => prerelease pv | None => "" end.

(** [x < y] on strings: bytewise lexicographic order. *)
Definition strLess (x y : string) : bool :=
  match String.compare x y with Lt => true | _ => false end.

Definition compareInt (x y : string) : Z :=
  if bool_decide (x = y) then 0
  else if String.length x <? String.length y then -1
  else if String.length y <? String.length x then 1
  else if strLess x y then -1 else 1.

(** [nextIdent]: the text before the first dot, and the rest from it. *)
Definition nextIdent (x : string) : string * string :=
  match indexByte "." x with
  | Some i => (take i x, drop i x)
  | None => (x, "")
  end.

(** The loop of [comparePrerelease]; every iteration shortens [x], which
    bounds [fuel]. *)
Fixpoint comparePrereleaseLoop (fuel : nat) (x y : string) : Z :=
  match fuel with
  | O => if bool_decide (x = "") then -1 else 1
  | S fuel' =>
      if bool_decide (x = "") || bool_decide (y = "") then
        if bool_decide (x = "") then -1 else 1
      else
        let '(dx, x') := nextIdent (drop 1 x) in
        let '(dy, y') := nextIdent (drop 1 y) in
        if bool_decide (dx = dy) then comparePrereleaseLoop fuel' x' y'
        else
          let ix := isNum dx in
          let iy := isNum dy in
          if negb (eqb ix iy) then (if ix then -1 else 1)
          else if ix && (String.length dx <? String.length dy) then -1
          else if ix && (String.length dy <? String.length dx) then 1
          else if strLess dx dy then -1 else 1
  end.

Definition comparePrerelease (x y : string) : Z :=
  if bool_decide (x = y) then 0
  else if bool_decide (x = "") then 1
  else if bool_decide (y = "") then -1
  else comparePrereleaseLoop (String.length x) x y.

(** [Compare] returns -1, 0 or +1; an invalid version is less than a valid
    one and equal to another invalid one. *)
Definition Compare (v w : string) : Z :=
  match parse v, parse w with
  | None, None => 0
  | None, Some _ => -1
  | Some _, None => 1
  | Some pv, Some pw =>
      let c := compareInt (major pv) (major pw) in
      if negb (c =? 0)%Z then c
      else
        let c := compareInt (minor pv) (minor pw) in
        if negb (c =? 0)%Z then c
        else
          let c := compareInt (patch pv) (patch pw) in
          if negb (c =? 0)%Z then c
          else comparePrerelease (prerelease pv) (prerelease pw)
  end.

End Semver.

(** ** The Gerrit client

    [GerritClient] is an interface of the repository; its implementations
    are collaborators. A client is modelled by a type of server states with
    the operations the workflows call: reads return a value or an error,
    [Tag] also returns the state it leaves. *)

Inductive result (A : Type) :=
  | Ok (a : A)
  | Err (e : error).
Arguments Ok {A} a.
Arguments Err {A} e.

Module Gerrit.

Class Client (G : Type) := {
  (* ListTags(ctx, project): the names of the project's tags *)
  ListTags : G → string → result (list string);
  (* GetTag(ctx, project, tag): the revision the tag is bound to *)
  GetTag : G → string → string → result string;
  (* ReadBranchHead(ctx, project, branch) *)
  ReadBranchHead : G → string → string → result string;
  (* Tag(ctx, project, tag, commit) *)
  Tag : G → string → string → string → G * option error
}.

(** What it means for a server that [Tag] bound [tag] to [commit]: the
    project then lists the tags it had and [tag], and reads [commit] from
    [tag]. *)
Definition tag_recorded `{Client G} (g g' : G) (project tag commit : string) : Prop :=
  ∀ tags, ListTags g project = Ok tags →
    ∃ tags', ListTags g' project = Ok tags' ∧
             (∀ t, t ∈ tags' ↔ t ∈ tags ∨ t = tag) ∧
             GetTag g' project tag = Ok commit.

(** A server whose reads reflect its successful writes. *)
Class Consistent (G : Type) `{Client G} := {
  tag_consistent g g' project tag commit :
    Tag g project tag commit = (g', None) → tag_recorded g g' project tag commit
}.

(** An in-memory server: tags and branch heads per project, in creation
    order. Tags are append-only: tagging an existing name is refused. *)
Record Fake := mkFake {
  fake_tags : list (string * string * string);      (* project, tag, revision *)
  fake_branches : list (string * string * string)   (* project, branch, head *)
}.

Definition fakeLookup (entries : list (string * string * string))
    (project name : string) : option string :=
  (λ ie, ie.2.2) <$> list_find (λ e, e.1.1 = project ∧ e.1.2 = name) entries.

Definition fakeListTags (g : Fake) (project : string) : result (list string) :=
  Ok ((λ e, e.1.2) <$> filter (λ e, e.1.1 = project) (fake_tags g)).

Definition fakeGetTag (g : Fake) (project tag : string) : result string :=
  match fakeLookup (fake_tags g) project tag with
  | Some revision => Ok revision
  | None => Err (ErrExternal "tag not found")
  end.

Definition fakeReadBranchHead (g : Fake) (project branch : string) : result string :=
  match fakeLookup (fake_branches g) project branch with
  | Some head => Ok head
  | None => Err (ErrExternal "branch not found")
  end.

Definition fakeTag (g : Fake) (project tag commit : string) : Fake * option error :=
  match fakeLookup (fake_tags g) project tag with
  | Some _ => (g, Some (ErrExternal "tag already exists"))
  | None =>
      (mkFake (fake_tags g ++ [(project, tag, commit)]) (fake_branches g), None)
  end.

#[global] Instance fake_client : Client Fake := {
  ListTags := fakeListTags;
  GetTag := fakeGetTag;
  ReadBranchHead := fakeReadBranchHead;
  Tag := fakeTag
}.

End Gerrit.

(** ** Idempotent tag decision *)

Module TagX.
Import Go Semver Gerrit.

(** [majorMinorRestRe = `^v(\d+)\.(\d+)\..*$`] applied with
    [FindStringSubmatch]: the two groups when the version matches. Digits
    are matched greedily and must be followed by a dot; [.] matches any
    byte but a newline. *)
Definition majorMinorRestRe (version : string) : option (string * string) :=
  s ← after "v" version;
  let i := digitsPrefix s in
  if i =? 0 then None
  else
    s2 ← after "." (drop i s);
    let j := digitsPrefix s2 in
    if j =? 0 then None
    else
      rest ← after "." (drop j s2);
      if ContainsByte rest (ascii_of_N 10) then None
      else Some (take i s, take j s2).

Definition nextMinor (version : string) : result string :=
  match majorMinorRestRe version with
  | None => Err (ErrMalformatted version)
  | Some (major, minorDigits) =>
      match Atoi minorDigits with
      | None => Err (ErrMalformattedNumber version)
      | Some minor =>
          Ok ("v" +:+ major +:+ "." +:+ formatInt (wrap64 (minor + 1)) +:+ ".0")
      end
  end.

(** The body of the loop over the tags in [MaybeTag]. *)
Definition keepHighest (highestRelease tag : string) : string :=
  if IsValid tag && bool_decide (Prerelease tag = "") &&
     (bool_decide (highestRelease = "") || (Compare highestRelease tag <? 0)%Z)
  then tag else highestRelease.

Definition highestRelease (tags : list string) : string :=
  foldl keepHighest "" tags.

Definition withVersion (repo : TagRepo) (version : string) : TagRepo :=
  {| Name := Name repo; ModPath := ModPath repo; Deps := Deps repo;
     Version := version |}.

(** [MaybeTag] tags [repo] at [commit] with the next version, unless
    [commit] is already the latest tagged version. [repo] is returned with
    [Version] populated. The result is the state of the server and the pair
    the Go function returns. *)
Definition MaybeTag `{Client G} (g : G) (repo : TagRepo) (commit : string)
    : G * (TagRepo * option error) :=
  match ListTags g (Name repo) with
  | Err err => (g, (zeroTagRepo, Some err))
  | Ok tags =>
      let highest := highestRelease tags in
      if bool_decide (highest = "") then
        (g, (zeroTagRepo, Some (ErrNoSemverTags tags)))
      else
        match GetTag g (Name repo) highest with
        | Err err =>
            (g, (zeroTagRepo, Some (ErrReadingTag (Name repo) highest err)))
        | Ok revision =>
            if bool_decide (revision = commit) then
              (g, (withVersion repo highest, None))
            else
              match nextMinor highest with
              | Err err =>
                  (g, (zeroTagRepo, Some (ErrPickNextVersion (Name repo) err)))
              | Ok version =>
                  let '(g', err) := Tag g (Name repo) version commit in
                  (g', (withVersion repo version, err))
              end
        end
  end.

End TagX.

(** ** Walks in the dependency graph *)

Module Walks.
Import Cycles.

(** Each module of the list depends on the next one. *)
Fixpoint chain (m : gmap string TagRepo) (l : list string) : Prop :=
  match l with
  | a :: (b :: _) as rest => edge m a b ∧ chain m rest
  | _ => True
  end.

(** A cycle as [checkCycles1] records it: a walk along dependencies that
    ends at the module it starts from, listed at both ends. *)
Definition is_cycle (m : gmap string TagRepo) (c : list string) : Prop :=
  ∃ a mid, c = a :: mid ++ [a] ∧ chain m c.

End Walks.

(** ** Order of the planned tasks *)

Module PlanOrder.
Import Plan.

(** Task [a] is registered in the definition before task [b]. *)
Definition before (wd : list Value) (a b : Value) : Prop :=
  ∃ i j, i < j ∧ wd !! i = Some a ∧ wd !! j = Some b.

(** Every planned module is a module of the list whose dependencies are
    all planned, with tasks registered before its own. *)
Definition deps_first (repos : list TagRepo) (wd : list Value)
    (updated : gmap string Value) : Prop :=
  ∀ k v, updated !! k = Some v →
    ∃ r, r ∈ repos ∧ ModPath r = k ∧
         ∀ dep, dep ∈ Deps r →
           ∃ vd, updated !! dep = Some vd ∧ before wd vd v.

(** Every planned task is registered in the definition. *)
Definition registered (wd : list Value) (updated : gmap string Value) : Prop :=
  ∀ k v, updated !! k = Some v → v ∈ wd.

End PlanOrder.

(** ** The gopls release workflow *)

Module Gopls.
Import Go Semver Gerrit.

(** [semversion] is a parsed semantic version. *)
Record semversion := mkSemversion {
  Major : Z;
  Minor : Z;
  Patch : Z;
  Pre : string
}.

(** [fmt.Sprintf("v%v.%v.%v", semv.Major, semv.Minor, semv.Patch)] *)
Definition versionString (semv : semversion) : string :=
  "v" +:+ formatInt (Major semv) +:+ "." +:+ formatInt (Minor semv)
      +:+ "." +:+ formatInt (Patch semv).

(** [goplsReleaseBranchName] returns the branch name for given input
    release version. *)
Definition goplsReleaseBranchName (semv : semversion) : string :=
  "gopls-release-branch." +:+ formatInt (Major semv) +:+ "."
    +:+ formatInt (Minor semv).

Definition prereleaseVersion (s : semversion) : result Z :=
  let parts := Split (Pre s) "." in
  if length parts =? 1 then Err ErrPreNoDot
  else if 2 <? length parts then Err (ErrPreDots (Z.of_nat (length parts) - 1))
  else
    match Atoi (default "" (parts !! 1)) with
    | None => Err ErrPreNotInt
    | Some pre =>
        if (pre <=? 0)%Z then Err (ErrPreNotPositive pre) else Ok pre
    end.

Section Scanner.

(** [fmt.Sscanf(v, "v%d.%d.%d", &Major, &Minor, &Patch)], a function of the
    standard library: the three numbers it leaves in the fields and
    whether it returned no error. *)
Variable Sscanf : string → Z * Z * Z * bool.

(** [parseSemver] attempts to parse semver components out of the provided
    semver [v]. If [v] is not valid semver in canonical form, it returns
    false. *)
Definition parseSemver (v : string) : semversion * bool :=
  let '(v', pre, _) := Cut v "-" in
  let '(major, minor, patch, ok) := Sscanf v' in
  (mkSemversion major minor patch pre, ok).

(** The body of the loop of [currentGoplsPrerelease]: the pre-release
    number a tag contributes, if it is not skipped. *)
Definition tagOrdinal (semv : semversion) (tag : string) : option Z :=
  match CutPrefix tag "gopls/" with
  | None => None
  | Some v =>
      let '(cur, ok) := parseSemver v in
      if negb ok then None
      else if negb (Major cur =? Major semv)%Z || negb (Minor cur =? Minor semv)%Z
              || negb (Patch cur =? Patch semv)%Z then None
      else
        match prereleaseVersion cur with
        | Err _ => None
        | Ok pre => Some pre
        end
  end.

Definition keepMax (semv : semversion) (max : Z) (tag : string) : Z :=
  match tagOrdinal semv tag with
  | Some pre => if (max <? pre)%Z then pre else max
  | None => max
  end.

(** [currentGoplsPrerelease] inspects the tags in tools repo that match
    with the given version and find the latest pre-release version. *)
Definition currentGoplsPrerelease `{Client G} (g : G) (semv : semversion)
    : result Z :=
  match ListTags g "tools" with
  | Err err => Err (ErrListTags err)
  | Ok tags => Ok (foldl (keepMax semv) 0%Z tags)
  end.

(** [nextPrerelease] inspects the tags in tools repo that match with the
    given version and find the next prerelease version. *)
Definition nextPrerelease `{Client G} (g : G) (semv : semversion)
    : result string :=
  match currentGoplsPrerelease g semv with
  | Err err => Err err
  | Ok cur => Ok ("pre." +:+ formatInt (wrap64 (cur + 1)))
  end.

(** [isValidPrereleaseVersion] verifies the input version satisfies the
    following conditions: it is the latest pre-release version for its
    Major.Minor.Patch; a corresponding "gopls/vX.Y.Z-pre.V" tag exists in
    the x/tools repo, pointing to the release branch's head commit; the
    corresponding release tag "gopls/vX.Y.Z" does not exist in the repo. *)
Definition isValidPrereleaseVersion `{Client G} (g : G) (version : string)
    : result semversion :=
  if negb (IsValid version) then Err (ErrNotSemver version)
  else
    let '(semv, ok) := parseSemver version in
    if negb ok then Err (ErrInvalidSemver version)
    else if bool_decide (Pre semv = "") then Err (ErrNoPrerelease version)
    else
      match prereleaseVersion semv with
      | Err err => Err err
      | Ok pre =>
          match ListTags g "tools" with
          | Err err => Err err
          | Ok tags =>
              let releaseTag := "gopls/" +:+ versionString semv in
              if bool_decide (releaseTag ∈ tags) then Err (ErrReleased releaseTag)
              else
                match currentGoplsPrerelease g semv with
                | Err _ =>
                    Err (ErrCurrentPrerelease (Major semv) (Minor semv) (Patch semv))
                | Ok current =>
                    if (pre <? current)%Z then
                      Err (ErrNewerPrerelease (Major semv) (Minor semv)
                             (Patch semv) current)
                    else if (current <? pre)%Z then
                      Err (ErrNotYetAvailable version (Major semv) (Minor semv)
                             (Patch semv) current)
                    else
                      let branchName := goplsReleaseBranchName semv in
                      match ReadBranchHead g "tools" branchName with
                      | Err err => Err err
                      | Ok head =>
                          match GetTag g "tools" ("gopls/" +:+ version) with
                          | Err err => Err err
                          | Ok revision =>
                              if bool_decide (revision ≠ head) then
                                Err (ErrHeadMismatch branchName head
                                       ("gopls/" +:+ version) revision)
                              else Ok semv
                          end
                      end
                end
          end
      end.

End Scanner.

(** What a tagging task leaves: the server, whether it called
    [ctx.DisableRetries()], and its result. *)
Record tagged (G A : Type) := mkTagged {
  tg_server : G;
  tg_retriesDisabled : bool;
  tg_result : result A
}.
Arguments mkTagged {G A}.
Arguments tg_server {G A}.
Arguments tg_retriesDisabled {G A}.
Arguments tg_result {G A}.

(** [tagPrerelease] applies gopls pre-release tags to the given commit. *)
Definition tagPrerelease `{Client G} (g : G) (semv : semversion)
    (commit pre : string) : tagged G string :=
  if bool_decide (commit = "") then
    mkTagged g false (Err (ErrExternal "the input commit should not be empty"))
  else if bool_decide (pre = "") then
    mkTagged g false
      (Err (ErrExternal "the input pre-release version should not be empty"))
  else
    let version := versionString semv +:+ "-" +:+ pre in
    let tag := "gopls/" +:+ version in
    match Tag g "tools" tag commit with
    | (g', Some err) => mkTagged g' true (Err err)
    | (g', None) => mkTagged g' true (Ok version)
    end.

(** [tagRelease] locates the commit associated with the pre-release
    version and applies the official release tag in form of "gopls/vX.Y.Z"
    to the same commit. *)
Definition tagRelease `{Client G} (g : G) (semv : semversion) : tagged G unit :=
  match GetTag g "tools" ("gopls/" +:+ versionString semv +:+ "-" +:+ Pre semv) with
  | Err err => mkTagged g false (Err err)
  | Ok revision =>
      let releaseTag := "gopls/" +:+ versionString semv in
      match Tag g "tools" releaseTag revision with
      | (g', Some err) => mkTagged g' true (Err err)
      | (g', None) => mkTagged g' true (Ok tt)
      end
  end.

End Gopls.

(** ** Watching files across a script run *)

Module CloudBuild.
Import Go.

(** The Cloud Build client, as far as [executeAndMonitorChange] uses it:
    [RunScript(ctx, script, gerritProject, outputs)] starts a build, and
    [buildToOutputs] (a function of the package) waits for it and reads
    the output files, keyed by name. *)
Class Client (C Build : Type) := {
  RunScript : C → string → string → list string → result Build;
  buildToOutputs : C → Build → result (gmap string string)
}.

Definition nl : string := String (ascii_of_N 10) "".

(** The lines added to the script for one watched file. *)
Definition copyBefore (file : string) : string :=
  "if [ -f '" +:+ file +:+ "' ]; then" +:+ nl +:+
  "    cp '" +:+ file +:+ "' '" +:+ file +:+ ".before'" +:+ nl +:+
  "else" +:+ nl +:+
  "    touch '" +:+ file +:+ "' '" +:+ file +:+ ".before'" +:+ nl +:+
  "fi" +:+ nl.

(** The first loop over [watchFiles]: the script grows by the copy of each
    file; a name with a quote ends the function. *)
Fixpoint watchScript (fullScript : string) (watchFiles : list string)
    : result string :=
  match watchFiles with
  | [] => Ok fullScript
  | file :: rest =>
      if ContainsByte file "'" then Err (ErrFileNameQuote file)
      else watchScript (fullScript +:+ copyBefore file) rest
  end.

(** [outputFiles]: for each watched file, its copy and itself. *)
Fixpoint outputNames (watchFiles : list string) : list string :=
  match watchFiles with
  | [] => []
  | file :: rest => (file +:+ ".before") :: file :: outputNames rest
  end.

(** [outputs[name]]: the empty string for a missing key. *)
Definition output (outputs : gmap string string) (name : string) : string :=
  default "" (outputs !! name).

(** The loop [for i := 0; i < len(outputFiles); i += 2]. *)
Fixpoint collectChanged (outputs : gmap string string)
    (outputFiles : list string) (changed : gmap string string)
    : gmap string string :=
  match outputFiles with
  | beforeName :: afterName :: rest =>
      let before := output outputs beforeName in
      let after := output outputs afterName in
      collectChanged outputs rest
        (if bool_decide (before ≠ after) then <[afterName := after]> changed
         else changed)
  | _ => changed
  end.

(** [executeAndMonitorChange] runs the specified script on the designated
    branch, tracking changes to the provided files. It returns a map where
    keys are the filenames of modified files and values are their
    corresponding content after script execution; a nil map is the empty
    map. *)
Definition executeAndMonitorChange `{Client C Build} (cloudBuild : C)
    (branch script : string) (watchFiles : list string)
    : gmap string string * option error :=
  let checkout :=
    "git checkout " +:+ branch +:+ nl +:+
    "git rev-parse --abbrev-ref HEAD" +:+ nl +:+
    "git rev-parse --ref HEAD" +:+ nl in
  match watchScript checkout watchFiles with
  | Err err => (∅, Some err)
  | Ok fullScript =>
      let fullScript := fullScript +:+ script in
      let outputFiles := outputNames watchFiles in
      match RunScript cloudBuild fullScript "tools" outputFiles with
      | Err err => (∅, Some err)
      | Ok build =>
          match buildToOutputs cloudBuild build with
          | Err err => (∅, Some err)
          | Ok outputs => (collectChanged outputs outputFiles ∅, None)
          end
      end
  end.

End CloudBuild.

(** ** Inputs for the examples *)

Module Examples.
Import Go Gopls.

(** One unsigned decimal numeral, and the rest. *)
Definition scanNumber (s : string) : option (Z * string) :=
  let i := digitsPrefix s in
  if i =? 0 then None
  else z ← Atoi (take i s); Some (z, drop i s).

(** A scanner for the examples: it reads vN.N.N written with unsigned
    decimal numerals, leaving a field it did not reach at zero, as
    [fmt.Sscanf] does on such input. *)
Definition plainScan (v : string) : Z * Z * Z * bool :=
  match after "v" v ≫= scanNumber with
  | None => (0, 0, 0, false)%Z
  | Some (major, s) =>
      match after "." s ≫= scanNumber with
      | None => (major, 0, 0, false)%Z
      | Some (minor, s) =>
          match after "." s ≫= scanNumber with
          | None => (major, minor, 0, false)%Z
          | Some (patch, _) => (major, minor, patch, true)
          end
      end
  end.

End Examples.

(** * Properties *)

Section CycleFacts.
Import Cycles.

(** *** Facts about [reposByModule] *)

Lemma foldl_insert_lookup (repos : list TagRepo) (acc : gmap string TagRepo) k r :
  foldl (fun m repo => <[ModPath repo := repo]> m) acc repos !! k = Some r →
  acc !! k = Some r ∨ (r ∈ repos ∧ ModPath r = k).
Proof.
  revert acc. induction repos as [|x repos IH]; intros acc H; simpl in *.
  - by left.
  - apply IH in H as [H|[H1 H2]].
    + destruct (decide (ModPath x = k)) as [<-|Hne].
      * rewrite lookup_insert_eq in H. inversion H; subst.
        right. split; [apply list_elem_of_here | done].
      * rewrite lookup_insert_ne in H by done. by left.
    + right. split; [by apply list_elem_of_further | done].
Qed.

Lemma foldl_insert_dom (repos : list TagRepo) (acc : gmap string TagRepo) k :
  is_Some (foldl (fun m repo => <[ModPath repo := repo]> m) acc repos !! k) ↔
  is_Some (acc !! k) ∨ ∃ r, r ∈ repos ∧ ModPath r = k.
Proof.
  revert acc. induction repos as [|x repos IH]; intros acc; simpl.
  - split; [by left | intros [H|(r & Hr & _)]; [done | by apply elem_of_nil in Hr]].
  - rewrite IH. split.
    + intros [H|(r & Hr & Hk)].
      * destruct (decide (ModPath x = k)) as [<-|Hne].
        -- right. exists x. split; [apply list_elem_of_here | done].
        -- rewrite lookup_insert_ne in H by done. by left.
      * right. exists r. split; [by apply list_elem_of_further | done].
    + intros [H|(r & Hr & Hk)].
      * left. destruct (decide (ModPath x = k)) as [<-|Hne].
        -- rewrite lookup_insert_eq. eauto.
        -- by rewrite lookup_insert_ne.
      * apply elem_of_cons in Hr as [->|Hr].
        -- left. subst k. rewrite lookup_insert_eq. eauto.
        -- right. eauto.
Qed.

Lemma foldl_insert_fresh (repos : list TagRepo) (acc : gmap string TagRepo) k :
  k ∉ ModPath <$> repos →
  foldl (fun m repo => <[ModPath repo := repo]> m) acc repos !! k = acc !! k.
Proof.
  revert acc. induction repos as [|x repos IH]; intros acc H; simpl in *; [done|].
  apply not_elem_of_cons in H as [H1 H2].
  rewrite IH by done. by rewrite lookup_insert_ne.
Qed.

Lemma reposByModule_keyed repos : keyed (reposByModule repos).
Proof.
  intros k r H. apply foldl_insert_lookup in H as [H|[_ H]]; [|done].
  by rewrite lookup_empty in H.
Qed.

Lemma reposByModule_elem repos k r :
  reposByModule repos !! k = Some r → r ∈ repos ∧ ModPath r = k.
Proof.
  intros H. apply foldl_insert_lookup in H as [H|H]; [|done].
  by rewrite lookup_empty in H.
Qed.

Lemma reposByModule_is_Some repos k :
  is_Some (reposByModule repos !! k) ↔ k ∈ ModPath <$> repos.
Proof.
  unfold reposByModule. rewrite foldl_insert_dom, lookup_empty, list_elem_of_fmap.
  split.
  - intros [[? ?]|(r & ? & ?)]; [done | by exists r].
  - intros (r & ? & ?). right. by exists r.
Qed.

Lemma reposByModule_lookup_NoDup repos r :
  NoDup (ModPath <$> repos) → r ∈ repos →
  reposByModule repos !! ModPath r = Some r.
Proof.
  unfold reposByModule. generalize (∅ : gmap string TagRepo).
  induction repos as [|x repos IH]; intros acc Hnd Hin; simpl in *.
  - by apply elem_of_nil in Hin.
  - apply NoDup_cons in Hnd as [Hx Hnd].
    apply elem_of_cons in Hin as [->|Hin].
    + rewrite foldl_insert_fresh by done. apply lookup_insert_eq.
    + by apply IH.
Qed.

(** *** The scan for revisits *)

Lemma revisits_nil p stack : revisits p stack = [] ↔ p ∉ stack.
Proof.
  induction stack as [|s stack IH]; simpl.
  - split; [intros _; apply not_elem_of_nil | done].
  - rewrite not_elem_of_cons. destruct (decide (s = p)) as [->|Hne]; simpl.
    + split; [done | intros [? _]; congruence].
    + rewrite IH. split; [intros ?; split; [congruence | done] | by intros [_ ?]].
Qed.

Lemma revisits_elem p stack c :
  c ∈ revisits p stack →
  ∃ i, stack !! i = Some p ∧ c = drop i (stack ++ [p]).
Proof.
  induction stack as [|s stack IH]; simpl; intros H.
  - by apply elem_of_nil in H.
  - apply elem_of_app in H as [H|H].
    + destruct (decide (s = p)) as [->|Hne]; [|by apply elem_of_nil in H].
      apply list_elem_of_singleton in H as ->. by exists 0.
    + destruct (IH H) as (i & Hi & ->). by exists (S i).
Qed.

Lemma revisits_length p stack c :
  c ∈ revisits p stack → 2 ≤ length c.
Proof.
  intros H. apply revisits_elem in H as (i & Hi & ->).
  apply lookup_lt_Some in Hi.
  rewrite length_drop, length_app. simpl. lia.
Qed.

(** *** Termination: how much fuel a walk needs *)

Lemma index_callable m dep : keyed m → callable m (index m dep).
Proof.
  intros Hk. unfold callable, index.
  destruct (m !! dep) as [r|] eqn:E; simpl; [|by right].
  left. by rewrite (Hk _ _ E).
Qed.

Lemma stack_length_bound (m : gmap string TagRepo) (stack : list string) :
  NoDup stack → (∀ s, s ∈ stack → is_Some (m !! s)) → length stack ≤ size m.
Proof.
  intros Hnd Hin.
  rewrite <- (size_dom (D := gset string) m).
  rewrite <- (size_list_to_set (C := gset string) stack) by done.
  apply subseteq_size. intros s Hs.
  apply elem_of_list_to_set in Hs. apply elem_of_dom. by apply Hin.
Qed.

Lemma checkCycles1_enough_fuel m fuel repo stack :
  keyed m → callable m repo → NoDup stack →
  (∀ s, s ∈ stack → is_Some (m !! s)) →
  size m < fuel + length stack →
  is_Some (checkCycles1 fuel m repo stack).
Proof.
  intros Hk. revert repo stack.
  induction fuel as [|fuel IH]; intros repo stack Hc Hnd Hin Hsz.
  - pose proof (stack_length_bound m stack Hnd Hin). simpl in Hsz. lia.
  - simpl. case_decide as Hrev; [eauto|].
    assert (revisits (ModPath repo) stack = []) as Hnil.
    { by apply nil_length_inv. }
    rewrite Hnil. apply revisits_nil in Hnil.
    destruct Hc as [Hc|Hc].
    + assert (is_Some (mapM (λ dep, checkCycles1 fuel m (index m dep)
                (stack ++ [ModPath repo])) (Deps repo))) as [subs ->]; [|simpl; eauto].
      apply mapM_is_Some, Forall_forall. intros dep _. simpl.
      apply IH.
      * by apply index_callable.
      * apply NoDup_app. split_and!; [done | | apply NoDup_singleton].
        intros x Hx Hx'. apply list_elem_of_singleton in Hx'. by subst.
      * intros s Hs. apply elem_of_app in Hs as [Hs|Hs]; [by apply Hin|].
        apply list_elem_of_singleton in Hs as ->. eauto.
      * rewrite length_app. simpl. lia.
    + rewrite Hc. simpl. eauto.
Qed.


(** *** Invariants of the activations *)


(** *** Keeping the shortest cycles *)

Lemma keepShortest_inv acc pre c :
  shortest_inv acc pre → shortest_inv (keepShortest acc c) (pre ++ [c]).
Proof.
  intros (Hnd & Hnil & Hchar). unfold keepShortest.
  destruct acc as [|first rest].
  - rewrite (Hnil eq_refl). simpl. split_and!.
    + apply NoDup_singleton.
    + done.
    + intros x. rewrite !list_elem_of_singleton. split.
      * intros ->. split; [done|]. by intros d ->%list_elem_of_singleton.
      * by intros [? _].
  - clear Hnil.
    assert (first ∈ first :: rest) as Hfirst by apply list_elem_of_here.
    assert (first :: rest ≠ []) as Hne by done.
    set (acc := first :: rest) in *. clearbody acc.
    apply Hchar in Hfirst as [Hfpre Hfmin].
    assert (∀ x, x ∈ acc → length x = length first) as Hlen.
    { intros x [Hx Hxmin]%Hchar. apply Nat.le_antisymm; auto. }
    repeat case_decide.
    + split_and!; [apply NoDup_singleton | done |].
      intros x. rewrite list_elem_of_singleton, elem_of_app, list_elem_of_singleton.
      split.
      * intros ->. split; [by right|].
        intros d [Hd| ->%list_elem_of_singleton]%elem_of_app; [|lia].
        specialize (Hfmin d Hd). lia.
      * intros [[Hx| ->] Hmin]; [|done].
        assert (length x ≤ length c).
        { apply Hmin, elem_of_app. right. apply list_elem_of_here. }
        specialize (Hfmin x Hx). lia.
    + split_and!; [done | done |].
      intros x. rewrite elem_of_app, list_elem_of_singleton. split.
      * intros Hx. pose proof (Hlen x Hx) as Hlx. apply Hchar in Hx as [Hx Hxmin].
        split; [by left|].
        intros d [Hd| ->%list_elem_of_singleton]%elem_of_app; [auto | lia].
      * intros [[Hx| ->] Hmin]; [|done].
        apply Hchar. split; [done|]. intros d Hd. apply Hmin, elem_of_app. by left.
    + split_and!.
      * apply NoDup_app. split_and!; [done | | apply NoDup_singleton].
        intros x Hx ->%list_elem_of_singleton. done.
      * by intros [? _]%app_eq_nil.
      * intros x. rewrite !elem_of_app, list_elem_of_singleton. split.
        -- intros [Hx| ->].
           ++ pose proof (Hlen x Hx) as Hlx. apply Hchar in Hx as [Hx Hxmin].
              split; [by left|].
              intros d [Hd| ->%list_elem_of_singleton]%elem_of_app; [auto | lia].
           ++ split; [by right|].
              intros d [Hd| ->%list_elem_of_singleton]%elem_of_app; [|done].
              specialize (Hfmin d Hd). lia.
        -- intros [[Hx| ->] Hmin]; [|by right]. left.
           apply Hchar. split; [done|]. intros d Hd. apply Hmin, elem_of_app. by left.
    + split_and!; [done | done |].
      intros x. rewrite elem_of_app, list_elem_of_singleton. split.
      * intros Hx. pose proof (Hlen x Hx) as Hlx. apply Hchar in Hx as [Hx Hxmin].
        split; [by left|].
        intros d [Hd| ->%list_elem_of_singleton]%elem_of_app; [auto | lia].
      * intros [[Hx| ->] Hmin].
        -- apply Hchar. split; [done|]. intros d Hd. apply Hmin, elem_of_app. by left.
        -- assert (length c ≤ length first); [|lia].
           apply Hmin, elem_of_app. by left.
Qed.

Lemma shortest_invariant cycles : shortest_inv (shortest cycles) cycles.
Proof.
  unfold shortest. induction cycles as [|c cycles IH] using rev_ind.
  - split_and!; [apply NoDup_nil_2 | done |].
    intros c. split; [by intros ?%elem_of_nil | by intros [?%elem_of_nil _]].
  - rewrite foldl_snoc. by apply keepShortest_inv.
Qed.

Lemma shortest_NoDup cycles : NoDup (shortest cycles).
Proof. apply shortest_invariant. Qed.

Lemma shortest_elem cycles c :
  c ∈ shortest cycles ↔ c ∈ cycles ∧ ∀ d, d ∈ cycles → length c ≤ length d.
Proof. apply shortest_invariant. Qed.

Lemma shortest_nil cycles : shortest cycles = [] ↔ cycles = [].
Proof.
  split; [apply shortest_invariant | by intros ->].
Qed.


(** *** The order of the walks does not matter *)



Lemma range_order_elem m order repo :
  range_order m order → repo ∈ order ↔ ∃ k, m !! k = Some repo.
Proof.
  unfold range_order. intros ->. rewrite list_elem_of_fmap. split.
  - intros ([k r] & -> & H). exists k. by apply elem_of_map_to_list in H.
  - intros (k & H). exists (k, repo). split; [done | by apply elem_of_map_to_list].
Qed.

Lemma discovered_is_Some fuel m order :
  keyed m → range_order m order → size m < fuel →
  is_Some (discovered fuel m order).
Proof.
  intros Hk Ho Hsz. unfold discovered.
  assert (is_Some (mapM (λ repo, checkCycles1 fuel m repo []) order)) as [k ->];
    [|simpl; eauto].
  apply mapM_is_Some, Forall_forall. intros repo Hin. simpl.
  apply (range_order_elem _ _ _ Ho) in Hin as [k Hl].
  apply checkCycles1_enough_fuel; [done | | apply NoDup_nil_2 | | simpl; lia].
  - left. by rewrite (Hk _ _ Hl).
  - by intros s ?%elem_of_nil.
Qed.


(** *** A cycle in the graph is found *)

Lemma loops_step m p : loops m p → ∃ p', edge m p p' ∧ loops m p'.
Proof.
  intros (q & Hpq & Hqq). apply rtc_inv in Hpq as [->|(p' & He & Hp'q)].
  - inversion Hqq as [? ? He|? q' ? He Hq'q]; subst.
    + exists q. split; [done|]. exists q. split; [done | by apply tc_once].
    + exists q'. split; [done|]. exists q. split; [by apply tc_rtc | done].
  - exists p'. split; [done|]. by exists q.
Qed.

Lemma checkCycles1_finds_cycle m fuel repo stack res :
  keyed m → m !! ModPath repo = Some repo → loops m (ModPath repo) →
  checkCycles1 fuel m repo stack = Some res → res ≠ [].
Proof.
  intros Hk. revert repo stack res.
  induction fuel as [|fuel IH]; intros repo stack res Hl Hloop H; [done|].
  simpl in H. case_decide as Hrev.
  - inversion H; subst. intros Hnil. rewrite Hnil in Hrev. by apply Hrev.
  - destruct (mapM _ _) as [subs|] eqn:E; [|done]. simpl in H. inversion H; subst.
    destruct (loops_step _ _ Hloop) as (p' & (r & Hr & Hdep) & Hloop').
    rewrite Hl in Hr. inversion Hr; subst r.
    destruct (loops_step _ _ Hloop') as (p'' & (r' & Hr' & _) & _).
    apply mapM_Some in E.
    apply list_elem_of_lookup in Hdep as [i Hi].
    destruct (Forall2_lookup_l _ _ _ _ _ E Hi) as (sub & Hsub & Hcall).
    simpl in Hcall. unfold index in Hcall. rewrite Hr' in Hcall. simpl in Hcall.
    assert (ModPath r' = p') as Hp' by (by apply Hk in Hr').
    assert (sub ≠ []) as Hne.
    { eapply IH; [| |exact Hcall]; rewrite Hp'; done. }
    intros Hnil. apply app_eq_nil in Hnil as [_ Hnil].
    apply join_nil_1 in Hnil. rewrite Forall_forall in Hnil.
    apply Hne, Hnil. by eapply list_elem_of_lookup_2.
Qed.

(** *** Without a cycle nothing is found *)

Lemma checkCycles1_acyclic m fuel repo stack res :
  keyed m → closed m → acyclic m →
  m !! ModPath repo = Some repo →
  (∀ s, s ∈ stack → tc (edge m) s (ModPath repo)) →
  checkCycles1 fuel m repo stack = Some res → res = [].
Proof.
  intros Hk Hcl Hac. revert repo stack res.
  induction fuel as [|fuel IH]; intros repo stack res Hl Hpath H; [done|].
  simpl in H. case_decide as Hrev.
  - exfalso. destruct (revisits (ModPath repo) stack) as [|c cs] eqn:E; [done|].
    assert (ModPath repo ∈ stack) as Hin.
    { destruct (decide (ModPath repo ∈ stack)) as [|Hn]; [done|].
      apply revisits_nil in Hn. congruence. }
    by apply (Hac (ModPath repo)), Hpath.
  - apply nil_length_inv in Hrev. rewrite Hrev in H.
    destruct (mapM _ _) as [subs|] eqn:E; [|done]. simpl in H. inversion H; subst.
    apply join_nil_2, Forall_forall. intros sub Hsub.
    apply mapM_Some in E.
    apply list_elem_of_lookup in Hsub as [i Hi].
    destruct (Forall2_lookup_r _ _ _ _ _ E Hi) as (dep & Hdep & Hcall).
    simpl in Hcall. apply list_elem_of_lookup_2 in Hdep.
    destruct (Hcl _ _ _ Hl Hdep) as [r' Hr'].
    unfold index in Hcall. rewrite Hr' in Hcall. simpl in Hcall.
    assert (ModPath r' = dep) as Hp' by (by apply Hk in Hr').
    assert (edge m (ModPath repo) dep) as He by (by exists repo).
    eapply IH; [| |exact Hcall].
    + by rewrite Hp'.
    + rewrite Hp'. intros s [Hs| ->%list_elem_of_singleton]%elem_of_app.
      * eapply tc_r; [by apply Hpath | done].
      * by apply tc_once.
Qed.

End CycleFacts.

Section PlanFacts.
Import Plan.

Lemma planRepo_ready wd repo (updated : gmap string Value) :
  is_Some (planRepo wd repo updated).2 ↔
  ∀ dep, dep ∈ Deps repo → is_Some (updated !! dep).
Proof.
  unfold planRepo.
  destruct (mapM _ (Deps repo)) as [deps|] eqn:E.
  - split.
    + intros _ dep Hdep.
      assert (is_Some (mapM (λ d, updated !! d) (Deps repo))) as H by eauto.
      apply mapM_is_Some in H. rewrite Forall_forall in H. by apply H.
    + intros _. simpl. case_decide; simpl; eauto.
  - simpl. split; [by intros [? ?]|].
    intros H. exfalso.
    assert (is_Some (mapM (λ d, updated !! d) (Deps repo))) as [? ?]; [|congruence].
    apply mapM_is_Some, Forall_forall. intros dep Hdep. by apply H.
Qed.

Lemma planRepo_not_ready wd repo (updated : gmap string Value) wd' :
  planRepo wd repo updated = (wd', None) → wd' = wd.
Proof.
  unfold planRepo. destruct (mapM _ _); [|by intros [= <-]].
  simpl. case_decide; simpl; discriminate.
Qed.

(** What a pass does to the map and to the flag. *)
Lemma planPass_spec repos : ∀ wd (updated : gmap string Value) progress wd' updated' progress',
  planPass wd repos updated progress = (wd', updated', progress') →
  updated ⊆ updated' ∧
  (∀ k, is_Some (updated' !! k) → is_Some (updated !! k) ∨ k ∈ ModPath <$> repos) ∧
  (progress = true → progress' = true) ∧
  (progress' = true → progress = true ∨ size updated < size updated') ∧
  (progress' = false → updated' = updated ∧ wd' = wd).
Proof.
  induction repos as [|x repos IH]; intros wd updated progress wd' updated' progress' H;
    simpl in H.
  - inversion H; subst. split_and!; auto.
  - destruct (updated !! ModPath x) as [v|] eqn:Ex.
    + apply IH in H as (H1 & H2 & H3 & H4 & H5). split_and!; auto.
      intros k Hk. destruct (H2 k Hk) as [?|?]; [by left|].
      right. by apply list_elem_of_further.
    + destruct (planRepo wd x updated) as [wd1 [dep|]] eqn:Ep.
      * apply IH in H as (H1 & H2 & H3 & H4 & H5).
        assert (size updated < size (<[ModPath x:=dep]> updated)) as Hsz.
        { rewrite map_size_insert_None by done. lia. }
        assert (size (<[ModPath x:=dep]> updated) ≤ size updated') as Hsz'.
        { by apply map_subseteq_size. }
        split_and!.
        -- etrans; [|exact H1]. by apply insert_subseteq.
        -- intros k Hk. destruct (H2 k Hk) as [Hi|Hi].
           ++ destruct (decide (ModPath x = k)) as [<-|Hne].
              ** right. apply list_elem_of_here.
              ** rewrite lookup_insert_ne in Hi by done. by left.
           ++ right. by apply list_elem_of_further.
        -- auto.
        -- intros _. right. lia.
        -- intros Hf. rewrite (H3 eq_refl) in Hf. done.
      * apply planRepo_not_ready in Ep as ->.
        apply IH in H as (H1 & H2 & H3 & H4 & H5). split_and!; auto.
        intros k Hk. destruct (H2 k Hk) as [?|?]; [by left|].
        right. by apply list_elem_of_further.
Qed.

(** A pass plans every module that is ready when the pass starts. *)
Lemma planPass_progress repos : ∀ wd (updated : gmap string Value) progress r,
  r ∈ repos → updated !! ModPath r = None →
  (∀ dep, dep ∈ Deps r → is_Some (updated !! dep)) →
  (planPass wd repos updated progress).2 = true.
Proof.
  induction repos as [|x repos IH]; intros wd updated progress r Hin Hnone Hready.
  - by apply elem_of_nil in Hin.
  - simpl. destruct (updated !! ModPath x) as [v|] eqn:Ex.
    + apply elem_of_cons in Hin as [->|Hin]; [congruence|].
      by eapply IH.
    + destruct (planRepo wd x updated) as [wd1 [dep|]] eqn:Ep.
      * destruct (planPass wd1 repos _ true) as [[wd2 u2] p2] eqn:E.
        apply planPass_spec in E as (_ & _ & H3 & _). simpl. by apply H3.
      * apply elem_of_cons in Hin as [->|Hin].
        -- apply planRepo_ready with (wd := wd) in Hready.
           rewrite Ep in Hready. by destruct Hready.
        -- by eapply IH.
Qed.

(** *** The loop of [BuildPlan] *)

Lemma planned_in_size repos updated :
  planned_in repos updated → size updated ≤ length repos.
Proof.
  intros Hin. rewrite <- (size_dom (D := gset string) updated).
  rewrite <- (length_fmap ModPath repos). unfold size, set_size. simpl.
  apply submseteq_length, NoDup_submseteq; [apply NoDup_elements|].
  intros k Hk. apply elem_of_elements, elem_of_dom in Hk. by apply Hin.
Qed.

Lemma planned_in_unplanned repos updated r :
  planned_in repos updated → r ∈ repos → updated !! ModPath r = None →
  size updated < length repos.
Proof.
  intros Hin Hr Hnone. rewrite <- (size_dom (D := gset string) updated).
  rewrite <- (length_fmap ModPath repos). unfold size, set_size. simpl.
  assert (length (ModPath r :: elements (dom updated)) ≤ length (ModPath <$> repos));
    [|simpl in *; lia].
  apply submseteq_length, NoDup_submseteq.
  - apply NoDup_cons. split; [|apply NoDup_elements].
    rewrite elem_of_elements, elem_of_dom, Hnone. by intros [? ?].
  - intros k [->|Hk]%elem_of_cons.
    + by apply list_elem_of_fmap_2.
    + apply elem_of_elements, elem_of_dom in Hk. by apply Hin.
Qed.

Lemma planPass_planned_in wd repos updated progress wd' updated' progress' :
  planPass wd repos updated progress = (wd', updated', progress') →
  planned_in repos updated → planned_in repos updated'.
Proof.
  intros H Hin k Hk. apply planPass_spec in H as (_ & H2 & _).
  destruct (H2 k Hk); auto.
Qed.

Lemma pass_state_planned_in wd0 repos wd updated :
  pass_state wd0 repos wd updated → planned_in repos updated.
Proof.
  induction 1 as [|wd u wd' u' _ IH _ Hpass].
  - intros k [? Hk]. by rewrite lookup_empty in Hk.
  - by eapply planPass_planned_in.
Qed.

Lemma BuildPlanLoop_fuel_mono fuel fuel' wd repos updated out :
  BuildPlanLoop fuel wd repos updated = Some out → fuel ≤ fuel' →
  BuildPlanLoop fuel' wd repos updated = Some out.
Proof.
  revert fuel' wd updated.
  induction fuel as [|fuel IH]; intros fuel' wd updated H Hle; [done|].
  destruct fuel' as [|fuel']; [lia|]. simpl in *.
  case_decide; [|done].
  destruct (planPass wd repos updated false) as [[wd1 u1] [|]]; [|done].
  apply IH; [done | lia].
Qed.

Lemma BuildPlanLoop_terminates fuel wd repos updated :
  planned_in repos updated → length repos < fuel + size updated →
  is_Some (BuildPlanLoop fuel wd repos updated).
Proof.
  revert wd updated.
  induction fuel as [|fuel IH]; intros wd updated Hin Hsz.
  - apply planned_in_size in Hin. simpl in Hsz. lia.
  - simpl. case_decide; [|eauto].
    destruct (planPass wd repos updated false) as [[wd1 u1] [|]] eqn:E; [|eauto].
    apply IH; [by eapply planPass_planned_in|].
    apply planPass_spec in E as (_ & _ & _ & H4 & _).
    destruct (H4 eq_refl) as [?|?]; [done | lia].
Qed.

Lemma pass_state_run wd0 repos wd updated fuel out :
  pass_state wd0 repos wd updated →
  BuildPlanLoop fuel wd repos updated = Some out →
  ∃ fuel', BuildPlanLoop fuel' wd0 repos ∅ = Some out.
Proof.
  intros Hst. revert fuel.
  induction Hst as [|wd u wd' u' _ IH Hsz Hpass]; intros fuel H; [eauto|].
  apply (IH (S fuel)). simpl. rewrite decide_True by done. by rewrite Hpass.
Qed.

Lemma BuildPlan_run wd0 repos fuel out :
  BuildPlanLoop fuel wd0 repos ∅ = Some out → BuildPlan wd0 repos = Some out.
Proof.
  intros H. unfold BuildPlan.
  destruct (BuildPlanLoop_terminates (S (length repos)) wd0 repos ∅) as [out' H'].
  - intros k [? Hk]. by rewrite lookup_empty in Hk.
  - lia.
  - rewrite H'. f_equal.
    apply BuildPlanLoop_fuel_mono with (fuel' := fuel `max` S (length repos)) in H; [|lia].
    apply BuildPlanLoop_fuel_mono with (fuel' := fuel `max` S (length repos)) in H'; [|lia].
    congruence.
Qed.

Lemma missing_filter repos (updated : gmap string Value) :
  missing repos updated = Name <$> filter (λ r, ModPath r ∉ dom updated) repos.
Proof.
  induction repos as [|r repos IH]; simpl; [done|].
  destruct (updated !! ModPath r) as [v|] eqn:E.
  - rewrite filter_cons_False; [done|].
    intros Hn. apply Hn, elem_of_dom. eauto.
  - rewrite filter_cons_True; [by rewrite fmap_cons, IH|].
    rewrite elem_of_dom, E. by intros [? ?].
Qed.

(** *** Acyclic, closed module sets always have a ready module *)

Lemma depends_finite repos a : pred_finite (tc (depends repos) a).
Proof.
  exists (repos ≫= Deps). intros b H.
  induction H as [a b (r & Hr & _ & Hb)|a b c _ _ IH]; [|done].
  apply list_elem_of_bind. eauto.
Qed.

Lemma exists_ready repos (updated : gmap string Value) r :
  Acyclic repos → dependency_closed repos →
  r ∈ repos → updated !! ModPath r = None →
  ∃ r', r' ∈ repos ∧ updated !! ModPath r' = None ∧
        ∀ dep, dep ∈ Deps r' → is_Some (updated !! dep).
Proof.
  intros Hac Hcl.
  assert (sn (depends repos) (ModPath r)) as Hsn.
  { apply tc_finite_sn; [exact Hac | apply depends_finite]. }
  remember (ModPath r) as a eqn:Ea. revert r Ea.
  induction Hsn as [a _ IH]; intros r -> Hr Hnone.
  destruct (decide (Forall (λ dep, is_Some (updated !! dep)) (Deps r))) as [Hall|Hnot].
  - exists r. split_and!; [done..|]. by apply Forall_forall.
  - apply not_Forall_Exists in Hnot; [|apply _].
    apply Exists_exists in Hnot as (dep & Hdep & Hn).
    pose proof (Hcl r dep Hr Hdep) as Hdep2.
    apply list_elem_of_fmap in Hdep2 as (r2 & -> & Hr2).
    apply (IH (ModPath r2)) with (r := r2); [by exists r | done | done |].
    destruct (updated !! ModPath r2) eqn:E; [|done]. exfalso. apply Hn. eauto.
Qed.

Lemma BuildPlanLoop_acyclic repos fuel wd updated :
  NoDup (ModPath <$> repos) → Acyclic repos → dependency_closed repos →
  planned_in repos updated → length repos < fuel + size updated →
  ∃ out, BuildPlanLoop fuel wd repos updated = Some out ∧
         out_err out = None ∧
         ∀ r, r ∈ repos → is_Some (out_updated out !! ModPath r).
Proof.
  intros Hnd Hac Hcl. revert wd updated.
  induction fuel as [|fuel IH]; intros wd updated Hin Hsz.
  - apply planned_in_size in Hin. simpl in Hsz. lia.
  - simpl. case_decide as Hne.
    + assert (∃ r, r ∈ repos ∧ updated !! ModPath r = None) as (r & Hr & Hnone).
      { destruct (decide (Forall (λ r, is_Some (updated !! ModPath r)) repos))
          as [Hall|Hnot].
        - exfalso. apply Hne. apply Nat.le_antisymm; [by apply planned_in_size|].
          rewrite <- (size_dom (D := gset string) updated).
          rewrite <- (length_fmap ModPath repos).
          rewrite <- (size_list_to_set (C := gset string) _ Hnd).
          apply subseteq_size. intros k Hk.
          apply elem_of_list_to_set, list_elem_of_fmap in Hk as (r & -> & Hr).
          apply elem_of_dom. rewrite Forall_forall in Hall. by apply Hall.
        - apply not_Forall_Exists in Hnot; [|apply _].
          apply Exists_exists in Hnot as (r & Hr & Hn). exists r. split; [done|].
          destruct (updated !! ModPath r) eqn:E; [|done]. exfalso. apply Hn. eauto. }
      destruct (exists_ready repos updated r Hac Hcl Hr Hnone)
        as (r' & Hr' & Hnone' & Hready).
      pose proof (planPass_progress repos wd updated false r' Hr' Hnone' Hready) as Hp.
      destruct (planPass wd repos updated false) as [[wd1 u1] p] eqn:E.
      simpl in Hp. subst p.
      apply IH; [by eapply planPass_planned_in|].
      apply planPass_spec in E as (_ & _ & _ & H4 & _).
      destruct (H4 eq_refl) as [?|?]; [done | lia].
    + eexists. split_and!; [done..|]. simpl.
      intros r Hr. apply elem_of_dom.
      assert (dom updated = list_to_set (C := gset string) (ModPath <$> repos)) as ->.
      { apply set_subseteq_size_eq.
        - intros k Hk. apply elem_of_list_to_set, Hin. by apply elem_of_dom.
        - rewrite size_list_to_set by done. rewrite size_dom, length_fmap. lia. }
      apply elem_of_list_to_set. by apply list_elem_of_fmap_2.
Qed.

End PlanFacts.

(** * Main results: dependency graph and plan *)

Import Cycles Plan.


Lemma edge_depends repos a b : edge (reposByModule repos) a b → depends repos a b.
Proof.
  intros (r & Hr & Hdep). apply reposByModule_elem in Hr as [Hr Hp]. by exists r.
Qed.

Lemma Acyclic_acyclic repos : Acyclic repos → acyclic (reposByModule repos).
Proof.
  intros Hac a Hcyc. apply (Hac a).
  assert (∀ x y, tc (edge (reposByModule repos)) x y → tc (depends repos) x y) as Htc.
  { induction 1 as [x y He|x y z He _ IH].
    - by apply tc_once, edge_depends.
    - eapply tc_l; [apply edge_depends, He | exact IH]. }
  by apply Htc.
Qed.

Lemma dependency_closed_closed repos :
  dependency_closed repos → closed (reposByModule repos).
Proof.
  intros Hcl k r dep Hr Hdep. apply reposByModule_elem in Hr as [Hr _].
  apply reposByModule_is_Some. by eapply Hcl.
Qed.

(** A ranking that every dependency lowers excludes cycles. *)
Lemma Acyclic_of_rank (rank : string → nat) repos :
  Forall (λ r, Forall (λ dep, rank dep < rank (ModPath r)) (Deps r)) repos →
  Acyclic repos.
Proof.
  intros Hrank.
  assert (∀ a b, tc (depends repos) a b → rank b < rank a) as Hlt.
  { induction 1 as [a b (r & Hr & <- & Hdep)|a b c (r & Hr & <- & Hdep) _ IH].
    - rewrite Forall_forall in Hrank. specialize (Hrank r Hr).
      rewrite Forall_forall in Hrank. by apply Hrank.
    - rewrite Forall_forall in Hrank. specialize (Hrank r Hr).
      rewrite Forall_forall in Hrank. specialize (Hrank b Hdep). lia. }
  intros a Ha. apply Hlt in Ha. lia.
Qed.

Lemma checkCycles_is_Some repos order fuel :
  range_order (reposByModule repos) order →
  size (reposByModule repos) < fuel →
  ∃ cycles, discovered fuel (reposByModule repos) order = Some cycles ∧
            checkCyclesFuel fuel order repos = Some (shortest cycles).
Proof.
  intros Ho Hf.
  destruct (discovered_is_Some fuel _ order (reposByModule_keyed repos) Ho Hf)
    as [cycles Hc].
  exists cycles. split; [done|]. unfold checkCyclesFuel. by rewrite Hc.
Qed.

(** The same cycle up to the module it is listed from: cycles are recorded
    with their first module repeated at the end. *)
Definition rotation_of (c d : list string) : Prop :=
  ∃ k, removelast d = rotate k (removelast c).

(** Two distinct rotations of one cycle are both returned. *)
Definition rotations_both_kept : Prop :=
  let a := mkTagRepo "a" "golang.org/x/a" ["golang.org/x/b"] "" in
  let b := mkTagRepo "b" "golang.org/x/b" ["golang.org/x/a"] "" in
  let c := ["golang.org/x/a"; "golang.org/x/b"; "golang.org/x/a"] in
  let d := ["golang.org/x/b"; "golang.org/x/a"; "golang.org/x/b"] in
  range_order (reposByModule [a; b]) [a; b] ∧
  checkCycles [a; b] [a; b] = Some [c; d] ∧ c ≠ d ∧ rotation_of c d.

Lemma rotations_both_kept_holds : rotations_both_kept.
Proof.
  unfold rotations_both_kept. split_and!.
  - unfold range_order. by vm_compute.
  - by vm_compute.
  - discriminate.
  - exists 1. by vm_compute.
Qed.

(** C3: every cycle [checkCycles] returns is one the walks discovered and
    has the minimum length among all discovered cycles; every discovered
    cycle of that length is returned; the returned list holds no sequence
    twice. Equality is that of sequences: two rotations of one cycle are
    different sequences and are both kept. *)
Theorem checkCycles_shortest_dedup (repos order : list TagRepo) :
  range_order (reposByModule repos) order →
  ∃ cycles res,
    discovered (S (size (reposByModule repos))) (reposByModule repos) order
      = Some cycles ∧
    checkCycles order repos = Some res ∧
    (∀ c, c ∈ res → c ∈ cycles ∧ ∀ d, d ∈ cycles → length c ≤ length d) ∧
    (∀ c, c ∈ cycles → (∀ d, d ∈ cycles → length c ≤ length d) → c ∈ res) ∧
    NoDup res ∧
    rotations_both_kept.
Proof.
  intros Ho.
  destruct (checkCycles_is_Some repos order (S (size (reposByModule repos))) Ho)
    as (cycles & Hd & Hc); [lia|].
  exists cycles, (shortest cycles). split_and!; try done.
  - intros c Hin. by apply shortest_elem.
  - intros c Hin Hmin. by apply shortest_elem.
  - apply shortest_NoDup.
  - apply rotations_both_kept_holds.
Qed.

Lemma checkCycles_shortest_dedup_witness :
  let a := mkTagRepo "a" "golang.org/x/a" ["golang.org/x/b"] "" in
  let b := mkTagRepo "b" "golang.org/x/b" ["golang.org/x/a"] "" in
  range_order (reposByModule [a; b]) [a; b] ∧
  ∃ cycles res,
    discovered 3 (reposByModule [a; b]) [a; b] = Some cycles ∧
    checkCycles [a; b] [a; b] = Some res ∧
    (∀ c, c ∈ res → c ∈ cycles ∧ ∀ d, d ∈ cycles → length c ≤ length d) ∧
    (∀ c, c ∈ cycles → (∀ d, d ∈ cycles → length c ≤ length d) → c ∈ res) ∧
    NoDup res ∧
    rotations_both_kept.
Proof.
  intros a b.
  assert (range_order (reposByModule [a; b]) [a; b]) as Ho.
  { unfold range_order. by vm_compute. }
  split; [exact Ho|].
  exact (checkCycles_shortest_dedup [a; b] [a; b] Ho).
Defined.






(** C1 as stated fails for an acyclic set in which a dependency names a
    module that is not in the set: [checkCycles] returns no cycle but
    [BuildPlan] stops with the failed-to-progress error and plans nothing. *)
Lemma acyclic_with_absent_dependency_not_planned :
  let b := mkTagRepo "b" "golang.org/x/b" ["golang.org/x/a"] "" in
  NoDup (ModPath <$> [b]) ∧ Acyclic [b] ∧
  range_order (reposByModule [b]) [b] ∧
  checkCycles [b] [b] = Some [] ∧
  BuildPlan [] [b] = Some (mkOutcome [] ∅ (Some (ErrFailedToProgress ["b"]))).
Proof.
  intros b. split_and!.
  - apply NoDup_singleton.
  - apply (Acyclic_of_rank (λ s, if decide (s = "golang.org/x/b") then 1 else 0)).
    repeat constructor.
  - unfold range_order. by vm_compute.
  - by vm_compute.
  - by vm_compute.
Qed.

(** C1 (amended): for every set of modules (no module path listed twice)
    whose dependency graph is acyclic and in which every dependency names a
    module of the set, [checkCycles] returns the empty list and [BuildPlan]
    terminates without error with every module of the set present in
    [updated]. *)
Theorem acyclic_closed_plan_succeeds (repos order : list TagRepo) (wd : list Value) :
  NoDup (ModPath <$> repos) →
  Acyclic repos →
  dependency_closed repos →
  range_order (reposByModule repos) order →
  checkCycles order repos = Some [] ∧
  ∃ out, BuildPlan wd repos = Some out ∧
         out_err out = None ∧
         ∀ r, r ∈ repos → is_Some (out_updated out !! ModPath r).
Proof.
  intros Hnd Hac Hcl Ho. split.
  - pose proof (reposByModule_keyed repos) as Hk.
    destruct (checkCycles_is_Some repos order (S (size (reposByModule repos))) Ho)
      as (cycles & Hd & Hc); [lia|].
    unfold checkCycles. rewrite Hc. f_equal. apply shortest_nil.
    unfold discovered in Hd.
    destruct (mapM _ order) as [found|] eqn:E; [|done]. simpl in Hd.
    inversion Hd; subst cycles. clear Hd.
    apply join_nil_2, Forall_forall. intros sub Hsub.
    apply mapM_Some in E. apply list_elem_of_lookup in Hsub as [i Hi].
    destruct (Forall2_lookup_r _ _ _ _ _ E Hi) as (repo & Hrepo & Hcall).
    cbv beta in Hcall. apply list_elem_of_lookup_2 in Hrepo.
    apply (range_order_elem _ _ _ Ho) in Hrepo as [k Hl].
    eapply checkCycles1_acyclic; [exact Hk | | | | | exact Hcall].
    + by apply dependency_closed_closed.
    + by apply Acyclic_acyclic.
    + by rewrite (Hk _ _ Hl).
    + by intros s ?%elem_of_nil.
  - apply BuildPlanLoop_acyclic; try done.
    + intros k [? Hk]. by rewrite lookup_empty in Hk.
    + rewrite map_size_empty. lia.
Qed.

Lemma acyclic_closed_plan_succeeds_witness :
  let a := mkTagRepo "a" "golang.org/x/a" [] "" in
  let b := mkTagRepo "b" "golang.org/x/b" ["golang.org/x/a"] "" in
  let c := mkTagRepo "c" "golang.org/x/c" ["golang.org/x/b"] "" in
  let repos := [c; b; a] in
  NoDup (ModPath <$> repos) ∧ Acyclic repos ∧ dependency_closed repos ∧
  range_order (reposByModule repos) [a; b; c] ∧
  checkCycles [a; b; c] repos = Some [] ∧
  ∃ out, BuildPlan [] repos = Some out ∧
         out_err out = None ∧
         ∀ r, r ∈ repos → is_Some (out_updated out !! ModPath r).
Proof.
  intros a b c repos.
  assert (NoDup (ModPath <$> repos)) as Hnd.
  { apply (bool_decide_unpack _). by vm_compute. }
  assert (Acyclic repos) as Hac.
  { apply (Acyclic_of_rank (λ s, String.length s +
                                 (if decide (s = "golang.org/x/a") then 0
                                  else if decide (s = "golang.org/x/b") then 1
                                  else 2))).
    apply (bool_decide_unpack _). by vm_compute. }
  assert (dependency_closed repos) as Hcl.
  { intros r dep Hr Hdep.
    assert (Forall (λ r, Forall (λ dep, dep ∈ ModPath <$> repos) (Deps r)) repos) as H.
    { apply (bool_decide_unpack _). by vm_compute. }
    rewrite Forall_forall in H. specialize (H r Hr).
    rewrite Forall_forall in H. exact (H dep Hdep). }
  assert (range_order (reposByModule repos) [a; b; c]) as Ho.
  { unfold range_order. apply (bool_decide_unpack _). by vm_compute. }
  split_and!; [exact Hnd | exact Hac | exact Hcl | exact Ho | |].
  - exact (proj1 (acyclic_closed_plan_succeeds repos [a; b; c] [] Hnd Hac Hcl Ho)).
  - exact (proj2 (acyclic_closed_plan_succeeds repos [a; b; c] [] Hnd Hac Hcl Ho)).
Defined.

(** C2: whenever [BuildPlan] starts a pass in which no module gets planned
    while some module of the list is not yet planned, the run ends (it does
    not loop) with the failed-to-progress error, and the names the error
    lists are exactly, in list order, the names of the modules that are
    not planned. *)
Theorem stuck_pass_reports_unplanned (wd0 wd : list Value) (repos : list TagRepo)
    (updated : gmap string Value) (r : TagRepo) :
  pass_state wd0 repos wd updated →
  r ∈ repos → updated !! ModPath r = None →
  (planPass wd repos updated false).2 = false →
  BuildPlan wd0 repos
    = Some (mkOutcome wd updated
              (Some (ErrFailedToProgress
                       (Name <$> filter (λ r, ModPath r ∉ dom updated) repos)))) ∧
  Name r ∈ Name <$> filter (λ r, ModPath r ∉ dom updated) repos.
Proof.
  intros Hst Hr Hnone Hstuck. split.
  - pose proof (pass_state_planned_in _ _ _ _ Hst) as Hin.
    pose proof (planned_in_unplanned _ _ _ Hin Hr Hnone) as Hlt.
    destruct (planPass wd repos updated false) as [[wd1 u1] p] eqn:E.
    simpl in Hstuck. subst p.
    pose proof (planPass_spec _ _ _ _ _ _ _ E) as (_ & _ & _ & _ & H5).
    destruct (H5 eq_refl) as [-> ->].
    destruct (pass_state_run wd0 repos wd updated 1
                (mkOutcome wd updated
                   (Some (ErrFailedToProgress (missing repos updated)))) Hst)
      as [fuel Hrun].
    + simpl. rewrite decide_True by lia. by rewrite E.
    + rewrite <- missing_filter. by eapply BuildPlan_run.
  - apply list_elem_of_fmap_2, list_elem_of_filter. split; [|done].
    rewrite elem_of_dom, Hnone. by intros [? ?].
Qed.

Lemma stuck_pass_reports_unplanned_witness :
  let a := mkTagRepo "a" "golang.org/x/a" [] "" in
  let b := mkTagRepo "b" "golang.org/x/b" ["golang.org/x/absent"] "" in
  let c := mkTagRepo "c" "golang.org/x/c" ["golang.org/x/b"] "" in
  ∃ wd updated,
    pass_state [] [c; b; a] wd updated ∧
    updated !! ModPath c = None ∧
    (planPass wd [c; b; a] updated false).2 = false ∧
    BuildPlan [] [c; b; a]
      = Some (mkOutcome wd updated (Some (ErrFailedToProgress ["c"; "b"]))).
Proof.
  intros a b c.
  destruct (planPass [] [c; b; a] ∅ false) as [[wd updated] p] eqn:E.
  exists wd, updated.
  assert (pass_state [] [c; b; a] wd updated ∧ updated !! ModPath c = None ∧
          (planPass wd [c; b; a] updated false).2 = false ∧
          Name <$> filter (λ r, ModPath r ∉ dom updated) [c; b; a] = ["c"; "b"])
    as (Hst & Hnone & Hstuck & Hnames).
  { vm_compute in E. inversion E; subst. split_and!.
    - eapply ps_step; [apply ps_init | by vm_compute | by vm_compute].
    - by vm_compute.
    - by vm_compute.
    - by vm_compute. }
  split_and!; [exact Hst | exact Hnone | exact Hstuck |].
  rewrite <- Hnames.
  exact (proj1 (stuck_pass_reports_unplanned [] wd [c; b; a] updated c Hst
                  ltac:(apply list_elem_of_here) Hnone Hstuck)).
Defined.

Section DigitFacts.
Import Go.
#[local] Arguments String.append !_ _ / : simpl nomatch.

(** A decimal numeral as [parseInt] accepts it: digits, at least one, and
    no leading zero unless it is "0". *)
Definition canonical (d : string) : Prop :=
  d ≠ "" ∧ allDigits d = true ∧ ∀ rest, d = String "0" rest → rest = "".

(** The string does not go on with a digit. *)
Definition noDigitAhead (s : string) : Prop :=
  match s with String c _ => isDigit c = false | EmptyString => True end.

Lemma isDigit_spec c :
  isDigit c = true → (digitVal c < 10)%N ∧ byte c = (48 + digitVal c)%N.
Proof.
  unfold isDigit, digitVal. intros [H1 H2]%andb_prop.
  apply N.leb_le in H1, H2. lia.
Qed.

Lemma isDigit_zero c : isDigit c = true → digitVal c = 0%N → c = "0"%char.
Proof.
  intros [_ Hb]%isDigit_spec Hz. rewrite Hz in Hb. unfold byte in Hb.
  by rewrite <- (ascii_N_embedding c), Hb.
Qed.

Lemma digitsValue_acc acc s :
  digitsValue acc s
  = (acc * 10 ^ N.of_nat (String.length s) + digitsValue 0 s)%N.
Proof.
  revert acc. induction s as [|c s IH]; intros acc; simpl String.length.
  - simpl. lia.
  - cbn [digitsValue]. rewrite (IH (10 * acc + digitVal c)%N), (IH (10 * 0 + digitVal c)%N).
    rewrite Nat2N.inj_succ, N.pow_succ_r'. lia.
Qed.

Lemma digitsValue_cons c s :
  digitsValue 0 (String c s)
  = (digitVal c * 10 ^ N.of_nat (String.length s) + digitsValue 0 s)%N.
Proof. cbn [digitsValue]. rewrite digitsValue_acc. f_equal; lia. Qed.

Lemma digitsValue_bound s :
  allDigits s = true → (digitsValue 0 s < 10 ^ N.of_nat (String.length s))%N.
Proof.
  induction s as [|c s IH]; intros H.
  - simpl. lia.
  - cbn [allDigits] in H. apply andb_prop in H as [Hc Hs].
    rewrite digitsValue_cons. simpl String.length.
    rewrite Nat2N.inj_succ, N.pow_succ_r'.
    apply isDigit_spec in Hc as [Hc _]. specialize (IH Hs). nia.
Qed.

Lemma canonical_lower c s :
  canonical (String c s) → String c s ≠ "0" →
  (10 ^ N.of_nat (String.length s) ≤ digitsValue 0 (String c s))%N.
Proof.
  intros (_ & Hd & Hz) Hne. cbn [allDigits] in Hd. apply andb_prop in Hd as [Hc Hs].
  rewrite digitsValue_cons.
  assert (digitVal c ≠ 0%N) as Hc0.
  { intros H0. apply (isDigit_zero _ Hc) in H0. subst c.
    apply Hne. by rewrite (Hz s eq_refl). }
  nia.
Qed.

Lemma compare_digits a b :
  allDigits a = true → allDigits b = true → String.length a = String.length b →
  String.compare a b = (digitsValue 0 a ?= digitsValue 0 b)%N.
Proof.
  revert b. induction a as [|c1 a IH]; intros [|c2 b] Ha Hb Hlen; try done.
  cbn [allDigits] in Ha, Hb.
  apply andb_prop in Ha as [Hc1 Ha]. apply andb_prop in Hb as [Hc2 Hb].
  simpl in Hlen. injection Hlen as Hlen.
  rewrite !digitsValue_cons. cbn [String.compare]. unfold Ascii.compare.
  pose proof (digitsValue_bound a Ha) as Hba.
  pose proof (digitsValue_bound b Hb) as Hbb.
  rewrite <- Hlen in *.
  destruct (isDigit_spec _ Hc1) as [_ Hb1]. destruct (isDigit_spec _ Hc2) as [_ Hb2].
  unfold byte in Hb1, Hb2. rewrite Hb1, Hb2.
  set (P := (10 ^ N.of_nat (String.length a))%N) in *.
  destruct (N.compare_spec (48 + digitVal c1) (48 + digitVal c2)) as [He|Hl|Hg].
  - assert (digitVal c1 = digitVal c2) as -> by lia.
    rewrite (IH b Ha Hb Hlen). symmetry.
    destruct (N.compare_spec (digitsValue 0 a) (digitsValue 0 b)).
    + apply N.compare_eq_iff. lia.
    + apply N.compare_lt_iff. lia.
    + apply N.compare_gt_iff. lia.
  - symmetry. apply N.compare_lt_iff. nia.
  - symmetry. apply N.compare_gt_iff. nia.
Qed.

Lemma digitsValue_inj a b :
  allDigits a = true → allDigits b = true → String.length a = String.length b →
  digitsValue 0 a = digitsValue 0 b → a = b.
Proof.
  intros Ha Hb Hlen Hv. apply String.compare_eq_iff.
  rewrite compare_digits by done. by apply N.compare_eq_iff.
Qed.

(** On canonical numerals, [compareInt] compares the numbers. *)
Lemma compareInt_spec a b :
  canonical a → canonical b →
  Semver.compareInt a b
  = match (digitsValue 0 a ?= digitsValue 0 b)%N with
    | Lt => (-1)%Z | Eq => 0%Z | Gt => 1%Z
    end.
Proof.
  intros Ha Hb. unfold Semver.compareInt.
  case_bool_decide as Heq.
  - subst b. by rewrite N.compare_refl.
  - assert (∀ x y, canonical x → canonical y →
              String.length x < String.length y →
              (digitsValue 0 x < digitsValue 0 y)%N) as Hshort.
    { intros x y Hx Hy Hlt.
      destruct Hx as (Hxne & Hxd & _).
      pose proof (digitsValue_bound x Hxd) as Hbx.
      destruct y as [|c y]; [simpl in Hlt; lia|].
      assert (String c y ≠ "0") as Hy0.
      { intros [= -> ->]. destruct x; [done | simpl in Hlt; lia]. }
      pose proof (canonical_lower c y Hy Hy0) as Hly.
      simpl in Hlt.
      assert (10 ^ N.of_nat (String.length x) ≤ 10 ^ N.of_nat (String.length y))%N.
      { apply N.pow_le_mono_r; lia. }
      lia. }
    destruct (String.length a <? String.length b) eqn:E1.
    { apply Nat.ltb_lt in E1. apply (Hshort a b Ha Hb) in E1.
      by apply N.compare_lt_iff in E1 as ->. }
    destruct (String.length b <? String.length a) eqn:E2.
    { apply Nat.ltb_lt in E2. apply (Hshort b a Hb Ha) in E2.
      by apply N.compare_gt_iff in E2 as ->. }
    apply Nat.ltb_ge in E1, E2.
    assert (String.length a = String.length b) as Hlen by lia.
    destruct Ha as (_ & Hda & _), Hb as (_ & Hdb & _).
    unfold Semver.strLess. rewrite compare_digits by done.
    destruct (N.compare_spec (digitsValue 0 a) (digitsValue 0 b)) as [He|Hl|Hg];
      try done.
    exfalso. apply Heq. by apply digitsValue_inj.
Qed.

(** *** Slices at the end of a run of digits *)

Lemma take_drop n s : take n s +:+ drop n s = s.
Proof.
  revert s. induction n as [|n IH]; intros [|c s]; simpl; try done.
  by rewrite IH.
Qed.

Lemma digitsPrefix_take s : allDigits (take (digitsPrefix s) s) = true.
Proof.
  induction s as [|c s IH]; simpl; [done|].
  destruct (isDigit c) eqn:E; simpl; [|done]. by rewrite E.
Qed.

Lemma digitsPrefix_drop s : noDigitAhead (drop (digitsPrefix s) s).
Proof.
  induction s as [|c s IH]; simpl; [done|].
  destruct (isDigit c) eqn:E; simpl; done.
Qed.

Lemma digitsPrefix_length s : String.length (take (digitsPrefix s) s) = digitsPrefix s.
Proof.
  induction s as [|c s IH]; simpl; [done|].
  destruct (isDigit c) eqn:E; simpl; [by rewrite IH | done].
Qed.

Lemma digitsPrefix_app t rest :
  allDigits t = true → noDigitAhead rest →
  digitsPrefix (t +:+ rest) = String.length t.
Proof.
  intros Ht Hr. induction t as [|c t IH]; simpl in *.
  - destruct rest as [|c r]; simpl in *; [done | by rewrite Hr].
  - apply andb_prop in Ht as [Hc Ht]. rewrite Hc. by rewrite IH.
Qed.

Lemma take_app_length t rest : take (String.length t) (t +:+ rest) = t.
Proof.
  induction t as [|c t IH]; simpl; [by destruct rest | by rewrite IH].
Qed.

Lemma drop_app_length t rest : drop (String.length t) (t +:+ rest) = rest.
Proof. induction t as [|c t IH]; simpl; [by destruct rest | done]. Qed.

Lemma allDigits_digitsPrefix t : allDigits t = true → digitsPrefix t = String.length t.
Proof.
  induction t as [|c t IH]; simpl; [done|].
  intros [Hc Ht]%andb_prop. rewrite Hc. by rewrite IH.
Qed.

(** *** [parseInt] *)

Lemma parseInt_Some_1 v t rest :
  Semver.parseInt v = Some (t, rest) →
  canonical t ∧ v = t +:+ rest ∧ noDigitAhead rest ∧
  t = take (digitsPrefix v) v ∧ rest = drop (digitsPrefix v) v.
Proof.
  unfold Semver.parseInt. destruct v as [|c v]; [done|].
  set (i := digitsPrefix (String c v)).
  destruct (isDigit c) eqn:Hc; [|done].
  change (negb true) with false. cbv iota.
  destruct (bool_decide (c = "0"%char) && negb (i =? 1)) eqn:Hz; [done|].
  intros [= <- <-]. split_and!.
  - split_and!.
    + unfold i. simpl. by rewrite Hc.
    + apply digitsPrefix_take.
    + intros r Hr. unfold i in *. simpl in Hr, Hz. rewrite Hc in Hr, Hz.
      simpl in Hr. inversion Hr as [[Hc0 Hr']]. subst c.
      rewrite bool_decide_eq_true_2 in Hz by done. simpl in Hz.
      apply negb_false_iff, Nat.eqb_eq in Hz.
      assert (digitsPrefix v = 0) as -> by lia. by destruct v.
  - by rewrite take_drop.
  - apply digitsPrefix_drop.
  - done.
  - done.
Qed.

Lemma parseInt_Some_2 t rest :
  canonical t → noDigitAhead rest → Semver.parseInt (t +:+ rest) = Some (t, rest).
Proof.
  intros (Hne & Hd & Hz) Hr. unfold Semver.parseInt.
  destruct t as [|c t]; [done|]. simpl append.
  pose proof Hd as Hd'. cbn [allDigits] in Hd'. apply andb_prop in Hd' as [Hc Ht].
  rewrite Hc. change (negb true) with false. cbv iota.
  change (String c (t +:+ rest)) with (String c t +:+ rest).
  rewrite (digitsPrefix_app (String c t) rest Hd Hr).
  rewrite take_app_length, drop_app_length.
  destruct (bool_decide (c = "0"%char) && negb (String.length (String c t) =? 1)) eqn:E;
    [|done].
  apply andb_prop in E as [E1 E2]. apply bool_decide_eq_true in E1. subst c.
  rewrite (Hz t eq_refl) in E2. done.
Qed.

(** *** Decimal output *)

Lemma pretty_N_char_digit k :
  (k < 10)%N → isDigit (pretty_N_char k) = true ∧ digitVal (pretty_N_char k) = k.
Proof.
  intros Hk.
  assert (k = 0 ∨ k = 1 ∨ k = 2 ∨ k = 3 ∨ k = 4 ∨ k = 5 ∨ k = 6 ∨ k = 7 ∨ k = 8
          ∨ k = 9)%N as H by lia.
  repeat (destruct H as [->|H]; [by vm_compute|]). subst. by vm_compute.
Qed.

Lemma pretty_N_go_spec x s :
  allDigits s = true →
  allDigits (pretty_N_go x s) = true ∧
  digitsValue 0 (pretty_N_go x s)
  = (x * 10 ^ N.of_nat (String.length s) + digitsValue 0 s)%N ∧
  ((0 < x)%N → ∃ c r, pretty_N_go x s = String c r ∧ c ≠ "0"%char).
Proof.
  revert s. induction (N.lt_wf_0 x) as [x _ IH]; intros s Hs.
  assert (x = 0 ∨ 0 < x)%N as [->|Hx] by lia.
  - rewrite pretty_N_go_0. split_and!; [done | lia | lia].
  - rewrite pretty_N_go_step by done.
    destruct (pretty_N_char_digit (x `mod` 10)) as [Hd Hv].
    { by apply N.mod_lt. }
    destruct (IH (x `div` 10)%N (N.div_lt x 10 Hx eq_refl)
                (String (pretty_N_char (x `mod` 10)) s)) as (H1 & H2 & H3).
    { cbn [allDigits]. by rewrite Hd, Hs. }
    split_and!.
    + done.
    + rewrite H2, digitsValue_cons, Hv. simpl String.length.
      rewrite Nat2N.inj_succ, N.pow_succ_r'.
      pose proof (N.div_mod x 10 ltac:(done)) as Hdm.
      set (P := (10 ^ N.of_nat (String.length s))%N).
      rewrite Hdm at 3. ring.
    + intros _. destruct (N.eq_0_gt_0_cases (x `div` 10)) as [Hq|Hq].
      * rewrite Hq, pretty_N_go_0. eexists _, _. split; [done|].
        intros Hc. assert (digitVal (pretty_N_char (x `mod` 10)) = 0%N) as Hv0
          by (by rewrite Hc).
        rewrite Hv in Hv0. pose proof (N.div_mod x 10 ltac:(done)) as Hdm.
        rewrite Hq, Hv0 in Hdm. lia.
      * by apply H3.
Qed.

Lemma pretty_N_canonical (n : N) :
  canonical (pretty n) ∧ digitsValue 0 (pretty n) = n.
Proof.
  unfold pretty, pretty_N. case_decide as Hn.
  - subst n. split; [|done]. split_and!; [done | done | by intros r [= <-]].
  - destruct (pretty_N_go_spec n "" eq_refl) as (H1 & H2 & H3).
    destruct H3 as (c & r & Hcr & Hc); [lia|].
    split.
    + split_and!; [by rewrite Hcr | done |].
      intros r' Hr'. rewrite Hcr in Hr'. by injection Hr' as -> _.
    + rewrite H2. simpl. lia.
Qed.

Lemma formatInt_nonneg (z : Z) :
  (0 ≤ z)%Z → formatInt z = pretty (Z.to_N z).
Proof. intros Hz. by destruct z. Qed.

Lemma after_Some c s r : after c s = Some r ↔ s = String c r.
Proof.
  destruct s as [|c' s]; simpl; [done|].
  case_bool_decide as Hc.
  - subst. split; [by intros [= ->] | by intros [= ->]].
  - split; [done | intros [= -> ->]; done].
Qed.

Lemma after_digit_sign c s :
  isDigit c = true → after "-" (String c s) = None ∧ after "+" (String c s) = None.
Proof.
  intros Hc.
  split; apply eq_None_not_Some; intros [r Hr]; apply after_Some in Hr;
    injection Hr as -> _; by vm_compute in Hc.
Qed.

(** A string of digits is read by [Atoi] as its value, within [int]. *)
Lemma Atoi_digits m k :
  allDigits m = true → Atoi m = Some k →
  k = Z.of_N (digitsValue 0 m) ∧ (0 ≤ k ≤ maxInt)%Z.
Proof.
  intros Hm. unfold Atoi. destruct m as [|c m]; [done|].
  pose proof Hm as Hm'. cbn [allDigits] in Hm'. apply andb_prop in Hm' as [Hc _].
  destruct (after_digit_sign c m Hc) as [E1 E2]. rewrite E1, E2.
  rewrite Hm.
  rewrite (bool_decide_eq_false_2 (String c m = "")) by done.
  rewrite (bool_decide_eq_false_2 (is_Some (@None string))) by (by intros [? ?]).
  simpl.
  case_bool_decide as Hrange; [|done]. intros [= <-]. split; [done | lia].
Qed.

End DigitFacts.


Section SemverFacts.
Import Go Semver.
#[local] Arguments String.append !_ _ / : simpl nomatch.

(** The numbers of a parsed version. *)
Definition key (pv : parsed) : N * N * N :=
  (digitsValue 0 (major pv), digitsValue 0 (minor pv), digitsValue 0 (patch pv)).

(** A release: a valid version without a prerelease, what [MaybeTag]
    considers; with its numbers. *)
Definition releaseKey (v : string) : option (N * N * N) :=
  match parse v with
  | Some pv => if bool_decide (prerelease pv = "") then Some (key pv) else None
  | None => None
  end.

(** Versions ordered by major, then minor, then patch. *)
Definition lexlt (x y : N * N * N) : Prop :=
  (x.1.1 < y.1.1 ∨ x.1.1 = y.1.1 ∧ (x.1.2 < y.1.2 ∨ x.1.2 = y.1.2 ∧ x.2 < y.2))%N.

Lemma releaseKey_candidate v :
  is_Some (releaseKey v) ↔ IsValid v = true ∧ Prerelease v = "".
Proof.
  unfold releaseKey, IsValid, Prerelease. destruct (parse v) as [pv|].
  - case_bool_decide as Hp.
    + split; [intros _; split; [by apply bool_decide_eq_true_2 | done] | eauto].
    + split; [by intros [? ?] | by intros [_ ?]].
  - split; [by intros [? ?] | intros [H _]; by apply bool_decide_eq_true in H as [? ?]].
Qed.

Lemma releaseKey_nonempty v : is_Some (releaseKey v) → v ≠ "".
Proof. by intros [k Hk] ->. Qed.

Lemma canonical_0 : canonical "0".
Proof. split_and!; [done | done | by intros r [= <-]]. Qed.

Lemma parse_canonical v pv :
  parse v = Some pv →
  canonical (major pv) ∧ canonical (minor pv) ∧ canonical (patch pv).
Proof.
  unfold parse. intros H.
  destruct (after "v" v) as [v1|]; [|done]. simpl in H.
  destruct (parseInt v1) as [[ma v2]|] eqn:E1; [|done]. simpl in H.
  apply parseInt_Some_1 in E1 as (Hma & _).
  case_bool_decide.
  { inversion H; subst pv. simpl. auto using canonical_0. }
  destruct (after "." v2) as [v3|]; [|done]. simpl in H.
  destruct (parseInt v3) as [[mi v4]|] eqn:E2; [|done]. simpl in H.
  apply parseInt_Some_1 in E2 as (Hmi & _).
  case_bool_decide.
  { inversion H; subst pv. simpl. auto using canonical_0. }
  destruct (after "." v4) as [v5|]; [|done]. simpl in H.
  destruct (parseInt v5) as [[pa v6]|] eqn:E3; [|done]. simpl in H.
  apply parseInt_Some_1 in E3 as (Hpa & _).
  destruct (if bool_decide (is_Some (after "-" v6)) then parsePrerelease v6
            else Some ("", v6)) as [[pre v7]|]; [|done]. simpl in H.
  destruct (if bool_decide (is_Some (after "+" v7)) then parseBuild v7
            else Some ("", v7)) as [[bu v8]|]; [|done]. simpl in H.
  case_bool_decide; [|done]. inversion H; subst pv. simpl. auto.
Qed.

Lemma comparePrerelease_refl x : comparePrerelease x x = 0%Z.
Proof. unfold comparePrerelease. by rewrite bool_decide_eq_true_2. Qed.

(** On releases, [Compare] orders by the numbers. *)
Lemma Compare_release v w kv kw :
  releaseKey v = Some kv → releaseKey w = Some kw →
  ((Compare v w < 0)%Z ↔ lexlt kv kw) ∧
  ((Compare v w = 0)%Z ↔ kv = kw) ∧
  ((0 < Compare v w)%Z ↔ lexlt kw kv).
Proof.
  unfold releaseKey, Compare.
  destruct (parse v) as [pv|] eqn:Ev; [|done].
  destruct (parse w) as [pw|] eqn:Ew; [|done].
  case_bool_decide as Hpv; [|done]. case_bool_decide as Hpw; [|done].
  intros [= <-] [= <-].
  destruct (parse_canonical _ _ Ev) as (Hv1 & Hv2 & Hv3).
  destruct (parse_canonical _ _ Ew) as (Hw1 & Hw2 & Hw3).
  rewrite !compareInt_spec by done. rewrite Hpv, Hpw, comparePrerelease_refl.
  unfold lexlt, key. simpl.
  destruct (N.compare_spec (digitsValue 0 (major pv)) (digitsValue 0 (major pw)));
    simpl; [|split_and!; split; intros; try lia; try (simplify_eq; lia)..].
  destruct (N.compare_spec (digitsValue 0 (minor pv)) (digitsValue 0 (minor pw)));
    simpl; [|split_and!; split; intros; try lia; try (simplify_eq; lia)..].
  destruct (N.compare_spec (digitsValue 0 (patch pv)) (digitsValue 0 (patch pw)));
    simpl; split_and!; split; intros; try lia; try (simplify_eq; lia); try congruence.
Qed.

End SemverFacts.

(** * Further properties of the dependency graph *)

Section WalkFacts.
Import Cycles Walks.

Lemma chain_cons_inv m a l : chain m (a :: l) → chain m l.
Proof. destruct l as [|b l]; simpl; [done | by intros [_ ?]]. Qed.

Lemma chain_drop m i l : chain m l → chain m (drop i l).
Proof.
  revert l. induction i as [|i IH]; intros l H; [by rewrite drop_0|].
  destruct l as [|a l]; [done|]. simpl. by apply IH, chain_cons_inv with a.
Qed.

Lemma chain_snoc m l a b :
  chain m (l ++ [a]) → edge m a b → chain m ((l ++ [a]) ++ [b]).
Proof.
  intros Hc He. induction l as [|x l IH]; simpl in *.
  - done.
  - destruct l as [|y l]; simpl in *.
    + destruct Hc as [Hxa _]. done.
    + destruct Hc as [Hxy Hc]. split; [done | by apply IH].
Qed.

Lemma chain_tc m a l b : chain m (a :: l ++ [b]) → tc (edge m) a b.
Proof.
  revert a. induction l as [|x l IH]; intros a H; simpl in H.
  - destruct H as [H _]. by apply tc_once.
  - destruct H as [Hax H]. eapply tc_l; [exact Hax | by apply IH].
Qed.

Lemma is_cycle_tc m c : is_cycle m c → has_cycle m.
Proof. intros (a & mid & -> & Hc). exists a. by eapply chain_tc. Qed.

(** Every cycle a walk records is a cycle of the graph, when no module has
    the empty path (the path of the zero value). *)
Lemma checkCycles1_sound m fuel repo stack res :
  keyed m → m !! "" = None →
  (∀ s, s ∈ stack → is_Some (m !! s)) →
  (m !! ModPath repo = Some repo ∧ chain m (stack ++ [ModPath repo]))
    ∨ repo = zeroTagRepo →
  checkCycles1 fuel m repo stack = Some res →
  ∀ c, c ∈ res → is_cycle m c.
Proof.
  intros Hk He. revert repo stack res.
  induction fuel as [|fuel IH]; intros repo stack res Hin Hrepo H c Hc; [done|].
  simpl in H. case_decide as Hrev.
  - inversion H; subst res. clear H.
    apply revisits_elem in Hc as (i & Hi & ->).
    destruct Hrepo as [[Hl Hch]| ->].
    + exists (ModPath repo), (drop (S i) stack). split.
      * rewrite drop_app_le by (apply lookup_lt_Some in Hi; lia).
        by rewrite (drop_S _ _ _ Hi).
      * by apply chain_drop.
    + exfalso. apply list_elem_of_lookup_2, Hin in Hi as [? Hi]. simpl in Hi.
      congruence.
  - apply nil_length_inv in Hrev. rewrite Hrev in H.
    destruct (mapM _ _) as [subs|] eqn:E; [|done]. simpl in H. inversion H; subst res.
    clear H. apply list_elem_of_join in Hc as (sub & Hc & Hsub).
    apply mapM_Some in E. apply list_elem_of_lookup in Hsub as [j Hj].
    destruct (Forall2_lookup_r _ _ _ _ _ E Hj) as (dep & Hdep & Hcall).
    cbv beta in Hcall. apply list_elem_of_lookup_2 in Hdep.
    destruct Hrepo as [[Hl Hch]| ->]; [|by apply elem_of_nil in Hdep].
    apply (IH (index m dep) (stack ++ [ModPath repo]) sub); [| |exact Hcall|exact Hc].
    + intros s [Hs| ->%list_elem_of_singleton]%elem_of_app; [by apply Hin | eauto].
    + unfold index. destruct (m !! dep) as [r'|] eqn:Er'; simpl; [|by right].
      left. rewrite (Hk _ _ Er'). split; [done|].
      apply chain_snoc; [done|]. by exists repo.
Qed.

Lemma discovered_sound m fuel order cycles :
  keyed m → m !! "" = None → range_order m order →
  discovered fuel m order = Some cycles →
  ∀ c, c ∈ cycles → is_cycle m c.
Proof.
  intros Hk He Ho H c Hc. unfold discovered in H.
  destruct (mapM _ order) as [found|] eqn:E; [|done]. simpl in H.
  inversion H; subst cycles. clear H.
  apply list_elem_of_join in Hc as (sub & Hc & Hsub).
  apply mapM_Some in E. apply list_elem_of_lookup in Hsub as [j Hj].
  destruct (Forall2_lookup_r _ _ _ _ _ E Hj) as (repo & Hrepo & Hcall).
  cbv beta in Hcall. apply list_elem_of_lookup_2 in Hrepo.
  apply (range_order_elem _ _ _ Ho) in Hrepo as [k Hl].
  eapply (checkCycles1_sound _ _ _ _ _ Hk He); [| |exact Hcall|exact Hc].
  - by intros s ?%elem_of_nil.
  - left. rewrite (Hk _ _ Hl). split; [done|]. simpl. done.
Qed.

Lemma discovered_finds_cycle m fuel order cycles :
  keyed m → range_order m order → has_cycle m →
  discovered fuel m order = Some cycles → cycles ≠ [].
Proof.
  intros Hk Ho [a Ha] H.
  assert (∃ r, m !! a = Some r) as [r Hr].
  { inversion Ha as [? ? (r & Hr & _)|? ? ? (r & Hr & _) _]; eauto. }
  assert (ModPath r = a) as Hp by (by apply Hk in Hr).
  assert (r ∈ order) as Hin by (apply (range_order_elem _ _ _ Ho); eauto).
  unfold discovered in H.
  destruct (mapM _ order) as [found|] eqn:E; [|done]. simpl in H.
  inversion H; subst cycles. clear H.
  apply mapM_Some in E. apply list_elem_of_lookup in Hin as [i Hi].
  destruct (Forall2_lookup_l _ _ _ _ _ E Hi) as (sub & Hsub & Hcall).
  cbv beta in Hcall.
  assert (sub ≠ []) as Hsubne.
  { eapply checkCycles1_finds_cycle; [exact Hk | | | exact Hcall].
    - by rewrite Hp.
    - rewrite Hp. exists a. split; [apply rtc_refl | done]. }
  intros Hnil. apply join_nil_1 in Hnil. rewrite Forall_forall in Hnil.
  apply Hsubne, Hnil. by eapply list_elem_of_lookup_2.
Qed.

End WalkFacts.

Import Walks.

(** X1: indexing [reposByModule] by a module path finds the last repo of
    the list with that path, and nothing for a path no repo has. *)
Theorem reposByModule_last_wins (repos before after : list TagRepo) (r : TagRepo) :
  repos = before ++ r :: after →
  ModPath r ∉ ModPath <$> after →
  reposByModule repos !! ModPath r = Some r ∧
  index (reposByModule repos) (ModPath r) = r ∧
  ∀ k, k ∉ ModPath <$> repos →
       reposByModule repos !! k = None ∧ index (reposByModule repos) k = zeroTagRepo.
Proof.
  intros -> Hfresh.
  assert (reposByModule (before ++ r :: after) !! ModPath r = Some r) as Hl.
  { unfold reposByModule. rewrite foldl_app. simpl.
    rewrite foldl_insert_fresh by done. apply lookup_insert_eq. }
  split_and!; [done | unfold index; by rewrite Hl |].
  intros k Hk.
  assert (reposByModule (before ++ r :: after) !! k = None) as Hn.
  { apply eq_None_not_Some. by rewrite reposByModule_is_Some. }
  split; [done | unfold index; by rewrite Hn].
Qed.

Lemma reposByModule_last_wins_witness :
  let old := mkTagRepo "tools-old" "golang.org/x/tools" ["golang.org/x/mod"] "" in
  let latest := mkTagRepo "tools" "golang.org/x/tools" [] "" in
  let other := mkTagRepo "mod" "golang.org/x/mod" [] "" in
  reposByModule [old; latest; other] !! "golang.org/x/tools" = Some latest ∧
  index (reposByModule [old; latest; other]) "golang.org/x/net" = zeroTagRepo.
Proof.
  intros old latest other.
  destruct (reposByModule_last_wins [old; latest; other] [old] [other] latest eq_refl)
    as (H1 & _ & H3).
  - apply (bool_decide_unpack _). by vm_compute.
  - split; [exact H1|]. apply H3. apply (bool_decide_unpack _). by vm_compute.
Defined.

(** X2: when no module has the empty module path, every cycle
    [checkCycles] returns is a cycle of the dependency graph: it starts and
    ends at the same module and each module in it depends on the next. *)
Theorem checkCycles_sound (repos order : list TagRepo) :
  range_order (reposByModule repos) order →
  reposByModule repos !! "" = None →
  ∃ res, checkCycles order repos = Some res ∧
         ∀ c, c ∈ res → is_cycle (reposByModule repos) c ∧ 2 ≤ length c.
Proof.
  intros Ho He.
  destruct (checkCycles_is_Some repos order (S (size (reposByModule repos))) Ho)
    as (cycles & Hd & Hc); [lia|].
  exists (shortest cycles). split; [done|].
  intros c [Hin _]%shortest_elem.
  pose proof (discovered_sound _ _ _ _ (reposByModule_keyed repos) He Ho Hd c Hin)
    as Hcyc.
  split; [done|]. destruct Hcyc as (a & mid & -> & _).
  simpl. rewrite length_app. simpl. lia.
Qed.

Lemma checkCycles_sound_witness :
  let a := mkTagRepo "a" "golang.org/x/a" ["golang.org/x/b"] "" in
  let b := mkTagRepo "b" "golang.org/x/b" ["golang.org/x/a"; "golang.org/x/c"] "" in
  ∃ res, checkCycles [a; b] [a; b] = Some res ∧
         ∀ c, c ∈ res → is_cycle (reposByModule [a; b]) c ∧ 2 ≤ length c.
Proof.
  intros a b. apply (checkCycles_sound [a; b] [a; b]).
  - unfold range_order. apply (bool_decide_unpack _). by vm_compute.
  - by vm_compute.
Defined.

(** X3: when no module has the empty module path, [checkCycles] returns
    the empty list exactly when the dependency graph has no cycle. *)
Theorem checkCycles_empty_iff_acyclic (repos order : list TagRepo) :
  range_order (reposByModule repos) order →
  reposByModule repos !! "" = None →
  checkCycles order repos = Some [] ↔ acyclic (reposByModule repos).
Proof.
  intros Ho He.
  pose proof (reposByModule_keyed repos) as Hk.
  destruct (checkCycles_is_Some repos order (S (size (reposByModule repos))) Ho)
    as (cycles & Hd & Hc); [lia|].
  unfold checkCycles. rewrite Hc. split.
  - intros [= Hs] a Ha. apply (proj1 (shortest_nil _)) in Hs.
    exact (discovered_finds_cycle _ _ _ cycles Hk Ho (ex_intro _ a Ha) Hd Hs).
  - intros Hac. f_equal. apply shortest_nil.
    destruct cycles as [|c cycles]; [done|]. exfalso.
    destruct (is_cycle_tc (reposByModule repos) c) as [a Ha]; [|by apply (Hac a)].
    eapply discovered_sound; [exact Hk | exact He | exact Ho | exact Hd |].
    apply list_elem_of_here.
Qed.

Lemma checkCycles_empty_iff_acyclic_witness :
  let a := mkTagRepo "a" "golang.org/x/a" ["golang.org/x/b"] "" in
  let b := mkTagRepo "b" "golang.org/x/b" ["golang.org/x/absent"] "" in
  checkCycles [a; b] [a; b] = Some [] ↔ acyclic (reposByModule [a; b]).
Proof.
  intros a b. apply (checkCycles_empty_iff_acyclic [a; b] [a; b]).
  - unfold range_order. apply (bool_decide_unpack _). by vm_compute.
  - by vm_compute.
Defined.

(** * Further properties of the plan *)

Section PlanOrderFacts.
Import Plan PlanOrder.

Lemma before_app wd added a b : before wd a b → before (wd ++ added) a b.
Proof.
  intros (i & j & Hij & Hi & Hj). exists i, j.
  split_and!; [done | by apply lookup_app_l_Some..].
Qed.

Lemma before_new wd added a b : a ∈ wd → b ∈ added → before (wd ++ added) a b.
Proof.
  intros [i Hi]%list_elem_of_lookup [j Hj]%list_elem_of_lookup.
  exists i, (length wd + j). split_and!.
  - apply lookup_lt_Some in Hi. lia.
  - by apply lookup_app_l_Some.
  - rewrite lookup_app_r by lia. by replace (length wd + j - length wd) with j by lia.
Qed.

Lemma planRepo_ready_tasks wd repo (updated : gmap string Value) wd' v :
  planRepo wd repo updated = (wd', Some v) →
  ∃ added, wd' = wd ++ added ∧ v ∈ added.
Proof.
  unfold planRepo. destruct (mapM _ _) as [deps|]; [|done].
  unfold addTask. case_decide; simpl; intros [= <- <-].
  - eexists. rewrite <- !app_assoc. split; [done|]. set_solver.
  - eexists. rewrite <- !app_assoc. split; [done|]. set_solver.
Qed.

Lemma planPass_order repos repos0 : ∀ wd (updated : gmap string Value) progress
    wd' updated' progress',
  (∀ r, r ∈ repos0 → r ∈ repos) →
  planPass wd repos0 updated progress = (wd', updated', progress') →
  registered wd updated → deps_first repos wd updated →
  registered wd' updated' ∧ deps_first repos wd' updated' ∧ wd `prefix_of` wd'.
Proof.
  induction repos0 as [|x repos0 IH];
    intros wd updated progress wd' updated' progress' Hsub H Hreg Hdf; simpl in H.
  - inversion H; subst. done.
  - assert (∀ r, r ∈ repos0 → r ∈ repos) as Hsub'
      by (intros r Hr; by apply Hsub, list_elem_of_further).
    destruct (updated !! ModPath x) as [v|] eqn:Ex; [by eapply IH|].
    destruct (planRepo wd x updated) as [wd1 [dep|]] eqn:Ep; [|by eapply IH].
    pose proof (proj1 (planRepo_ready wd x updated)) as Hready.
    rewrite Ep in Hready. specialize (Hready ltac:(simpl; eauto)).
    apply planRepo_ready_tasks in Ep as (added & -> & Hadd).
    eapply IH in H as (H1 & H2 & H3); [split_and!; [done | done |] | done | |].
    + etrans; [|exact H3]. by apply prefix_app_r.
    + intros k v Hkv. destruct (decide (ModPath x = k)) as [<-|Hne].
      * rewrite lookup_insert_eq in Hkv. inversion Hkv; subst v.
        apply elem_of_app. by right.
      * rewrite lookup_insert_ne in Hkv by done.
        apply elem_of_app. left. by eapply Hreg.
    + intros k v Hkv. destruct (decide (ModPath x = k)) as [<-|Hne].
      * rewrite lookup_insert_eq in Hkv. inversion Hkv; subst v.
        exists x. split_and!; [apply Hsub, list_elem_of_here | done |].
        intros d Hd. destruct (Hready d Hd) as [vd Hvd].
        exists vd. split.
        -- rewrite lookup_insert_ne; [done|]. intros Heq. rewrite <- Heq in Hvd.
           congruence.
        -- apply before_new; [by eapply Hreg | done].
      * rewrite lookup_insert_ne in Hkv by done.
        destruct (Hdf k v Hkv) as (r & Hr & Hk & Hdeps).
        exists r. split_and!; [done..|].
        intros d Hd. destruct (Hdeps d Hd) as (vd & Hvd & Hb).
        exists vd. split; [|by apply before_app].
        rewrite lookup_insert_ne; [done|]. intros Heq. rewrite <- Heq in Hvd.
        congruence.
Qed.

(** What every run of the loop ends with. *)
Lemma BuildPlanLoop_outcome repos fuel : ∀ wd (updated : gmap string Value) out,
  BuildPlanLoop fuel wd repos updated = Some out →
  planned_in repos updated → registered wd updated → deps_first repos wd updated →
  planned_in repos (out_updated out) ∧
  deps_first repos (out_wd out) (out_updated out) ∧
  wd `prefix_of` out_wd out ∧
  (out_err out = None ∧ size (out_updated out) = length repos
   ∨ out_err out = Some (ErrFailedToProgress (missing repos (out_updated out))) ∧
     size (out_updated out) ≠ length repos).
Proof.
  induction fuel as [|fuel IH]; intros wd updated out H Hin Hreg Hdf; [done|].
  simpl in H. case_decide as Hsz.
  - destruct (planPass wd repos updated false) as [[wd1 u1] p] eqn:E.
    pose proof (planPass_planned_in _ _ _ _ _ _ _ E Hin) as Hin1.
    pose proof (planPass_spec _ _ _ _ _ _ _ E) as (_ & _ & _ & _ & H5).
    apply (planPass_order repos) in E as (Hreg1 & Hdf1 & Hpre); try done.
    destruct p.
    + apply IH in H as (H1 & H2 & H3 & H4); try done.
      split_and!; try done. by etrans.
    + inversion H; subst out. simpl. destruct (H5 eq_refl) as [-> ->].
      split_and!; try done. by right.
  - unfold addTask in H. inversion H; subst out. simpl.
    split_and!; try done.
    + intros k v Hkv. destruct (Hdf k v Hkv) as (r & Hr & Hk & Hdeps).
      exists r. split_and!; [done..|].
      intros d Hd. destruct (Hdeps d Hd) as (vd & Hvd & Hb).
      exists vd. split; [done | by apply before_app].
    + by apply prefix_app_r.
    + left. split; [done | lia].
Qed.

Lemma BuildPlan_outcome wd repos :
  ∃ out, BuildPlan wd repos = Some out ∧
    planned_in repos (out_updated out) ∧
    deps_first repos (out_wd out) (out_updated out) ∧
    wd `prefix_of` out_wd out ∧
    (out_err out = None ∧ size (out_updated out) = length repos
     ∨ out_err out = Some (ErrFailedToProgress (missing repos (out_updated out))) ∧
       size (out_updated out) ≠ length repos).
Proof.
  destruct (BuildPlanLoop_terminates (S (length repos)) wd repos ∅) as [out Hout].
  - intros k [? Hk]. by rewrite lookup_empty in Hk.
  - lia.
  - exists out. split; [done|].
    apply (BuildPlanLoop_outcome _ _ _ _ _ Hout).
    + intros k [? Hk]. by rewrite lookup_empty in Hk.
    + intros k v Hk. by rewrite lookup_empty in Hk.
    + intros k v Hk. by rewrite lookup_empty in Hk.
Qed.

Lemma size_list_to_set_le (l : list string) :
  size (list_to_set (C := gset string) l) ≤ length l.
Proof.
  induction l as [|x l IH]; simpl; [done|].
  rewrite size_union_alt, size_singleton.
  assert (size (list_to_set (C := gset string) l ∖ {[x]})
          ≤ size (list_to_set (C := gset string) l)); [|lia].
  apply subseteq_size. intros y Hy. by apply elem_of_difference in Hy as [Hy _].
Qed.

Lemma size_list_to_set_NoDup (l : list string) :
  size (list_to_set (C := gset string) l) = length l → NoDup l.
Proof.
  pose proof size_list_to_set_le as Hle.
  induction l as [|x l IH]; simpl; intros H; [apply NoDup_nil_2|].
  apply NoDup_cons. destruct (decide (x ∈ l)) as [Hin|Hnin].
  - exfalso. specialize (Hle l).
    assert ({[x]} ∪ list_to_set l = list_to_set (C := gset string) l) as Heq.
    { apply set_eq. intros y. rewrite elem_of_union, elem_of_singleton.
      split; [intros [->|Hy]; [by apply elem_of_list_to_set | done] | by right]. }
    rewrite Heq in H. lia.
  - split; [done|]. apply IH.
    rewrite size_union in H.
    + rewrite size_singleton in H. lia.
    + intros y Hy Hy'. apply elem_of_singleton in Hy. subst y.
      by apply elem_of_list_to_set in Hy'.
Qed.

Lemma planned_in_full repos (updated : gmap string Value) :
  planned_in repos updated → size updated = length repos →
  NoDup (ModPath <$> repos) ∧ ∀ r, r ∈ repos → is_Some (updated !! ModPath r).
Proof.
  intros Hin Hsz.
  assert (dom updated ⊆ list_to_set (C := gset string) (ModPath <$> repos)) as Hsub.
  { intros k Hk. apply elem_of_list_to_set, Hin. by apply elem_of_dom. }
  pose proof (size_list_to_set_le (ModPath <$> repos)) as Hle.
  pose proof (subseteq_size _ _ Hsub) as Hle'.
  rewrite size_dom, Hsz in Hle'. rewrite length_fmap in Hle.
  split.
  - apply size_list_to_set_NoDup. rewrite length_fmap. lia.
  - intros r Hr. apply elem_of_dom.
    assert (dom updated = list_to_set (C := gset string) (ModPath <$> repos)) as ->.
    { apply set_subseteq_size_eq; [done|]. rewrite size_dom. lia. }
    apply elem_of_list_to_set. by apply list_elem_of_fmap_2.
Qed.

End PlanOrderFacts.

Import PlanOrder.

(** X4: [BuildPlan] always returns, only adds tasks to the definition, and
    what it planned respects the dependencies: every planned module is a
    module of the list, all its dependencies are planned, and the task of
    each dependency is registered before the module's own. *)
Theorem BuildPlan_dependencies_first (wd : list Value) (repos : list TagRepo) :
  ∃ out, BuildPlan wd repos = Some out ∧
    wd `prefix_of` out_wd out ∧
    ∀ k v, out_updated out !! k = Some v →
      ∃ r, r ∈ repos ∧ ModPath r = k ∧
           ∀ dep, dep ∈ Deps r →
             ∃ vd, out_updated out !! dep = Some vd ∧ before (out_wd out) vd v.
Proof.
  destruct (BuildPlan_outcome wd repos) as (out & H & _ & Hdf & Hpre & _).
  by exists out.
Qed.

(** X5: [BuildPlan] ends in one of two ways. Without error, and then no
    module path is listed twice and every module is planned; or with the
    failed-to-progress error listing the modules that are not planned.
    A list that repeats a module path always ends with the error. *)
Theorem BuildPlan_success_or_stuck (wd : list Value) (repos : list TagRepo) :
  ∃ out, BuildPlan wd repos = Some out ∧
    (out_err out = None ∧ NoDup (ModPath <$> repos) ∧
       (∀ r, r ∈ repos → is_Some (out_updated out !! ModPath r))
     ∨ out_err out
         = Some (ErrFailedToProgress
                   (Name <$> filter (λ r, ModPath r ∉ dom (out_updated out)) repos))) ∧
    (¬ NoDup (ModPath <$> repos) → out_err out ≠ None).
Proof.
  destruct (BuildPlan_outcome wd repos) as (out & H & Hin & _ & _ & Hcases).
  exists out. split; [done|].
  destruct Hcases as [[He Hsz]|[He Hsz]].
  - destruct (planned_in_full _ _ Hin Hsz) as [Hnd Hall].
    split; [by left | done].
  - rewrite missing_filter in He. split; [by right | by rewrite He].
Qed.

(** X6: in a list without repeated module paths, a module that depends on
    a module absent from the list is never planned: [BuildPlan] ends with
    the failed-to-progress error, and the error names that module. *)
Theorem BuildPlan_absent_dependency (wd : list Value) (repos : list TagRepo)
    (r : TagRepo) (dep : string) :
  NoDup (ModPath <$> repos) →
  r ∈ repos → dep ∈ Deps r → dep ∉ ModPath <$> repos →
  ∃ out names, BuildPlan wd repos = Some out ∧
    out_err out = Some (ErrFailedToProgress names) ∧
    Name r ∈ names ∧
    out_updated out !! ModPath r = None.
Proof.
  intros Hnd Hr Hdep Habs.
  destruct (BuildPlan_outcome wd repos) as (out & H & Hin & Hdf & _ & Hcases).
  assert (out_updated out !! ModPath r = None) as Hnone.
  { destruct (out_updated out !! ModPath r) as [v|] eqn:E; [|done]. exfalso.
    destruct (Hdf _ _ E) as (r' & Hr' & Hp & Hdeps).
    assert (r' = r) as ->.
    { apply list_elem_of_lookup in Hr as [i Hi], Hr' as [j Hj].
      assert (i = j) as ->; [|congruence].
      eapply NoDup_lookup; [exact Hnd | |]; rewrite list_lookup_fmap.
      - by rewrite Hi.
      - rewrite Hj. simpl. by rewrite Hp. }
    destruct (Hdeps dep Hdep) as (vd & Hvd & _).
    apply Habs, Hin. eauto. }
  exists out, (Name <$> filter (λ r, ModPath r ∉ dom (out_updated out)) repos).
  split_and!; [done | | | done].
  - destruct Hcases as [[He Hsz]|[He Hsz]].
    + destruct (planned_in_full _ _ Hin Hsz) as [_ Hall].
      destruct (Hall r Hr) as [? ?]. congruence.
    + by rewrite missing_filter in He.
  - apply list_elem_of_fmap_2, list_elem_of_filter. split; [|done].
    rewrite elem_of_dom, Hnone. by intros [? ?].
Qed.

Lemma BuildPlan_absent_dependency_witness :
  let a := mkTagRepo "a" "golang.org/x/a" [] "" in
  let b := mkTagRepo "b" "golang.org/x/b" ["golang.org/x/absent"; "golang.org/x/a"] "" in
  ∃ out names, BuildPlan [] [b; a] = Some out ∧
    out_err out = Some (ErrFailedToProgress names) ∧
    Name b ∈ names ∧
    out_updated out !! ModPath b = None.
Proof.
  intros a b.
  apply (BuildPlan_absent_dependency [] [b; a] b "golang.org/x/absent").
  - apply (bool_decide_unpack _). by vm_compute.
  - apply list_elem_of_here.
  - apply list_elem_of_here.
  - apply (bool_decide_unpack _). by vm_compute.
Defined.

(** * Properties of the tag decision *)

Section TagFacts.
Import Go Semver Gerrit TagX.
#[local] Arguments String.append !_ _ / : simpl nomatch.

Lemma lexlt_irrefl x : ¬ lexlt x x.
Proof. unfold lexlt. lia. Qed.

Lemma lexlt_trans x y z : lexlt x y → lexlt y z → lexlt x z.
Proof. unfold lexlt. lia. Qed.

Lemma lexlt_not_trans x y z : ¬ lexlt x y → ¬ lexlt y z → ¬ lexlt x z.
Proof. unfold lexlt. lia. Qed.

Lemma lexlt_le_trans x y z : lexlt x y → ¬ lexlt z y → lexlt x z.
Proof. unfold lexlt. lia. Qed.

Lemma lexlt_asym x y : lexlt x y → ¬ lexlt y x.
Proof. unfold lexlt. lia. Qed.

Lemma wrap64_small z : (minInt ≤ z ≤ maxInt)%Z → wrap64 z = z.
Proof.
  unfold wrap64, minInt, maxInt. intros H.
  rewrite Z.mod_small; lia.
Qed.

(** What [keepHighest] does, by cases on the tag. *)
Lemma keepHighest_not_release acc t : releaseKey t = None → keepHighest acc t = acc.
Proof.
  intros Ht. unfold keepHighest.
  destruct (IsValid t && bool_decide (Prerelease t = "")) eqn:E; [|done].
  apply andb_prop in E as [E1 E2]. apply bool_decide_eq_true in E2.
  assert (is_Some (releaseKey t)) as [? ?] by (by apply releaseKey_candidate).
  congruence.
Qed.

Lemma keepHighest_first t kt : releaseKey t = Some kt → keepHighest "" t = t.
Proof.
  intros Ht. unfold keepHighest.
  destruct (releaseKey_candidate t) as [[-> ->] _]; [eauto|]. done.
Qed.

Lemma keepHighest_release acc t ka kt :
  releaseKey acc = Some ka → releaseKey t = Some kt →
  (lexlt ka kt ∧ keepHighest acc t = t) ∨ (¬ lexlt ka kt ∧ keepHighest acc t = acc).
Proof.
  intros Ha Ht. unfold keepHighest.
  destruct (releaseKey_candidate t) as [[-> ->] _]; [eauto|].
  rewrite bool_decide_eq_true_2 by done.
  rewrite bool_decide_eq_false_2 by (apply releaseKey_nonempty; eauto). simpl.
  destruct (Compare_release acc t ka kt Ha Ht) as (Hlt & _ & _).
  destruct (Compare acc t <? 0)%Z eqn:E.
  - left. split; [|done]. apply Hlt. by apply Z.ltb_lt.
  - right. split; [|done]. intros Hl. apply Hlt in Hl. apply Z.ltb_ge in E. lia.
Qed.

Lemma foldl_keepHighest tags : ∀ acc,
  acc = "" ∨ is_Some (releaseKey acc) →
  let h := foldl keepHighest acc tags in
  (h = "" ∨ is_Some (releaseKey h)) ∧
  (h = acc ∨ h ∈ tags) ∧
  (h = "" → acc = "" ∧ ∀ t, t ∈ tags → releaseKey t = None) ∧
  (∀ kh, releaseKey h = Some kh →
     (∀ ka, releaseKey acc = Some ka → ¬ lexlt kh ka) ∧
     ∀ t kt, t ∈ tags → releaseKey t = Some kt → ¬ lexlt kh kt).
Proof.
  induction tags as [|t tags IH]; intros acc Hacc; simpl.
  - split_and!; [done | by left | |].
    + intros ->. split; [done|]. by intros t ?%elem_of_nil.
    + intros kh Hkh. split.
      * intros ka Hka. assert (ka = kh) as -> by congruence. apply lexlt_irrefl.
      * by intros t kt ?%elem_of_nil.
  - assert (keepHighest acc t = "" ∨ is_Some (releaseKey (keepHighest acc t))) as Hnext.
    { destruct (releaseKey t) as [kt|] eqn:Et.
      - destruct Hacc as [->|[ka Hka]].
        + rewrite (keepHighest_first t kt Et). eauto.
        + destruct (keepHighest_release acc t ka kt Hka Et) as [[_ ->]|[_ ->]]; eauto.
      - by rewrite (keepHighest_not_release acc t Et). }
    destruct (IH _ Hnext) as (H1 & H2 & H3 & H4). split_and!.
    + done.
    + destruct H2 as [->|H2]; [|right; by apply list_elem_of_further].
      destruct (releaseKey t) as [kt|] eqn:Et.
      * destruct Hacc as [->|[ka Hka]].
        -- rewrite (keepHighest_first t kt Et). right. apply list_elem_of_here.
        -- destruct (keepHighest_release acc t ka kt Hka Et) as [[_ ->]|[_ ->]];
             [right; apply list_elem_of_here | by left].
      * rewrite (keepHighest_not_release acc t Et). by left.
    + intros Hh. destruct (H3 Hh) as [Hk Hnone].
      destruct (releaseKey t) as [kt|] eqn:Et.
      * exfalso. destruct Hacc as [->|[ka Hka]].
        -- rewrite (keepHighest_first t kt Et) in Hk. subst t. done.
        -- destruct (keepHighest_release acc t ka kt Hka Et) as [[_ E]|[_ E]];
             rewrite E in Hk; subst; done.
      * rewrite (keepHighest_not_release acc t Et) in Hk. split; [done|].
        intros t' [->|Ht']%elem_of_cons; auto.
    + intros kh Hkh. destruct (H4 kh Hkh) as [Hx Hrest].
      assert ((∀ ka, releaseKey acc = Some ka → ¬ lexlt kh ka) ∧
              (∀ kt, releaseKey t = Some kt → ¬ lexlt kh kt)) as [Ha Ht].
      { destruct (releaseKey t) as [kt|] eqn:Et.
        - destruct Hacc as [->|[ka Hka]].
          + rewrite (keepHighest_first t kt Et) in Hx. split; [done|].
            intros kt' [= <-]. by apply Hx.
          + destruct (keepHighest_release acc t ka kt Hka Et) as [[Hl E]|[Hl E]];
              rewrite E in Hx.
            * specialize (Hx kt Et). split.
              -- intros ka' Hka'. assert (ka' = ka) as -> by congruence.
                 intros Hc. apply Hx. by eapply lexlt_trans.
              -- by intros kt' [= <-].
            * specialize (Hx ka Hka). split.
              -- intros ka' Hka'. by assert (ka' = ka) as -> by congruence.
              -- intros kt' [= <-]. by eapply lexlt_not_trans.
        - rewrite (keepHighest_not_release acc t Et) in Hx. split; [done | done]. }
      split; [done|].
      intros t' kt' [->|Ht']%elem_of_cons Hkt'; [by apply Ht | by eapply Hrest].
Qed.

(** [highestRelease] is "" when the list holds no release, and otherwise a
    release of the list that no release of the list exceeds. *)
Lemma highestRelease_spec tags :
  let h := highestRelease tags in
  (h = "" ↔ ∀ t, t ∈ tags → releaseKey t = None) ∧
  (h ≠ "" → h ∈ tags ∧ ∃ kh, releaseKey h = Some kh ∧
            ∀ t kt, t ∈ tags → releaseKey t = Some kt → ¬ lexlt kh kt).
Proof.
  destruct (foldl_keepHighest tags "" (or_introl eq_refl)) as (H1 & H2 & H3 & H4).
  fold (highestRelease tags) in H1, H2, H3, H4. simpl. split.
  - split; [by intros [_ ?]%H3|].
    intros Hnone. destruct H1 as [?|[kh Hkh]]; [done|].
    destruct H2 as [H2|H2]; [done|]. rewrite (Hnone _ H2) in Hkh. done.
  - intros Hne. destruct H2 as [?|H2]; [done|]. split; [done|].
    destruct H1 as [?|[kh Hkh]]; [done|]. exists kh. split; [done|].
    by apply H4.
Qed.

(** A release of the list that exceeds every other release is the one
    [highestRelease] selects, wherever it stands in the list. *)
Lemma highestRelease_strict_max tags v kv :
  v ∈ tags → releaseKey v = Some kv →
  (∀ t kt, t ∈ tags → t ≠ v → releaseKey t = Some kt → lexlt kt kv) →
  highestRelease tags = v.
Proof.
  intros Hin Hkv Hmax.
  destruct (highestRelease_spec tags) as [Hnil Hne]. simpl in *.
  destruct (decide (highestRelease tags = "")) as [He|He].
  { pose proof (proj1 Hnil He v Hin) as Hn. rewrite Hn in Hkv. done. }
  destruct (Hne He) as (Hh & kh & Hkh & Hle).
  destruct (decide (highestRelease tags = v)) as [|Hdiff]; [done|].
  exfalso. apply (Hle v kv Hin Hkv). by eapply Hmax.
Qed.

(** *** [nextMinor] on versions that parse *)

(** The two groups of the pattern are the major and minor numerals that
    [parse] reads. *)
Lemma majorMinorRestRe_parse h ph M m :
  parse h = Some ph → majorMinorRestRe h = Some (M, m) →
  major ph = M ∧ minor ph = m.
Proof.
  unfold parse, majorMinorRestRe. intros Hp Hre.
  destruct (after "v" h) as [s|]; [|done]. simpl in Hp, Hre.
  destruct (parseInt s) as [[ma v2]|] eqn:E1; [|done]. simpl in Hp.
  apply parseInt_Some_1 in E1 as (_ & _ & _ & -> & ->).
  destruct (digitsPrefix s =? 0); [done|].
  destruct (after "." (drop (digitsPrefix s) s)) as [s2|] eqn:E2; [|done].
  simpl in Hp, Hre.
  assert (drop (digitsPrefix s) s ≠ "") as Hne.
  { intros Hd. rewrite Hd in E2. done. }
  rewrite bool_decide_eq_false_2 in Hp by done.
  destruct (parseInt s2) as [[mi v4]|] eqn:E3; [|done]. simpl in Hp.
  apply parseInt_Some_1 in E3 as (_ & _ & _ & -> & ->).
  destruct (digitsPrefix s2 =? 0); [done|].
  destruct (after "." (drop (digitsPrefix s2) s2)) as [rest|] eqn:E4; [|done].
  simpl in Hp, Hre.
  assert (drop (digitsPrefix s2) s2 ≠ "") as Hne2.
  { intros Hd. rewrite Hd in E4. done. }
  rewrite bool_decide_eq_false_2 in Hp by done.
  destruct (ContainsByte rest _); [done|]. inversion Hre; subst M m. clear Hre.
  destruct (parseInt rest) as [[pa v6]|]; [|done]. simpl in Hp.
  destruct (if bool_decide (is_Some (after "-" v6)) then parsePrerelease v6
            else Some ("", v6)) as [[pre v7]|]; [|done]. simpl in Hp.
  destruct (if bool_decide (is_Some (after "+" v7)) then parseBuild v7
            else Some ("", v7)) as [[bu v8]|]; [|done]. simpl in Hp.
  case_bool_decide; [|done]. by inversion Hp.
Qed.

(** The short forms vMAJOR and vMAJOR.MINOR do not match the pattern. *)
Lemma majorMinorRestRe_short h ph :
  parse h = Some ph → short ph ≠ "" → majorMinorRestRe h = None.
Proof.
  unfold parse, majorMinorRestRe. intros Hp Hs.
  destruct (after "v" h) as [s|]; [|done]. simpl in Hp |- *.
  destruct (parseInt s) as [[ma v2]|] eqn:E1; [|done]. simpl in Hp.
  apply parseInt_Some_1 in E1 as (_ & _ & _ & -> & ->).
  destruct (digitsPrefix s =? 0); [done|].
  case_bool_decide as Hv2.
  { rewrite Hv2. done. }
  destruct (after "." (drop (digitsPrefix s) s)) as [s2|] eqn:E2; [|done].
  simpl in Hp |- *.
  destruct (parseInt s2) as [[mi v4]|] eqn:E3; [|done]. simpl in Hp.
  apply parseInt_Some_1 in E3 as (_ & _ & _ & -> & ->).
  destruct (digitsPrefix s2 =? 0); [done|].
  case_bool_decide as Hv4.
  { rewrite Hv4. done. }
  destruct (after "." (drop (digitsPrefix s2) s2)) as [rest|] eqn:E4; [|done].
  simpl in Hp.
  destruct (parseInt rest) as [[pa v6]|]; [|done]. simpl in Hp.
  destruct (if bool_decide (is_Some (after "-" v6)) then parsePrerelease v6
            else Some ("", v6)) as [[pre v7]|]; [|done]. simpl in Hp.
  destruct (if bool_decide (is_Some (after "+" v7)) then parseBuild v7
            else Some ("", v7)) as [[bu v8]|]; [|done]. simpl in Hp.
  case_bool_decide; [|done]. inversion Hp; subst ph. done.
Qed.

(** The version [nextMinor] writes, read back. *)
Lemma parse_next M (n : N) :
  canonical M →
  parse (String "v" (M +:+ String "." (pretty n +:+ ".0")))
  = Some (mkParsed M (pretty n) "0" "" "" "").
Proof.
  intros HM. destruct (pretty_N_canonical n) as [Hn _].
  unfold parse. simpl after. cbn [mbind option_bind].
  rewrite (parseInt_Some_2 M (String "." (pretty n +:+ ".0")) HM) by done.
  cbn [mbind option_bind]. rewrite bool_decide_eq_false_2 by done.
  simpl after. cbn [mbind option_bind].
  rewrite (parseInt_Some_2 (pretty n) ".0" Hn) by done.
  by vm_compute.
Qed.

(** From a release whose minor number is below the largest [int],
    [nextMinor] makes the release with the same major number, the next
    minor number and patch 0. *)
Lemma nextMinor_release h kh v :
  releaseKey h = Some kh → nextMinor h = Ok v →
  (Z.of_N kh.1.2 < maxInt)%Z →
  releaseKey v = Some (kh.1.1, (kh.1.2 + 1)%N, 0%N) ∧
  ∃ M, v = "v" +:+ M +:+ "." +:+ pretty (kh.1.2 + 1)%N +:+ ".0" ∧
       digitsValue 0 M = kh.1.1.
Proof.
  intros Hk Hn Hmax. unfold releaseKey in Hk. unfold nextMinor in Hn.
  destruct (parse h) as [ph|] eqn:Hp; [|done].
  case_bool_decide as Hpre; [|done]. inversion Hk; subst kh. clear Hk.
  destruct (majorMinorRestRe h) as [[M m]|] eqn:Hre; [|done].
  destruct (majorMinorRestRe_parse _ _ _ _ Hp Hre) as [<- <-].
  destruct (parse_canonical _ _ Hp) as (HM & Hm & _).
  destruct (Atoi (minor ph)) as [k|] eqn:Ha; [|done].
  destruct (Atoi_digits _ _ (proj1 (proj2 Hm)) Ha) as [Hkv Hrange].
  inversion Hn; subst v. clear Hn. simpl in Hmax.
  assert (formatInt (wrap64 (k + 1)) = pretty (digitsValue 0 (minor ph) + 1)%N) as ->.
  { rewrite wrap64_small by (unfold minInt, maxInt in *; lia).
    rewrite formatInt_nonneg by lia. f_equal. lia. }
  split; [|by exists (major ph)].
  unfold releaseKey. rewrite parse_next by done.
  rewrite bool_decide_eq_true_2 by done. unfold key. simpl.
  by rewrite (proj2 (pretty_N_canonical _)).
Qed.

(** At the largest [int] the sum wraps and the text written is not a
    version. *)
Lemma nextMinor_overflow h kh v :
  releaseKey h = Some kh → nextMinor h = Ok v →
  (Z.of_N kh.1.2 = maxInt)%Z → IsValid v = false.
Proof.
  intros Hk Hn Hmax. unfold releaseKey in Hk. unfold nextMinor in Hn.
  destruct (parse h) as [ph|] eqn:Hp; [|done].
  case_bool_decide as Hpre; [|done]. inversion Hk; subst kh. clear Hk.
  destruct (majorMinorRestRe h) as [[M m]|] eqn:Hre; [|done].
  destruct (majorMinorRestRe_parse _ _ _ _ Hp Hre) as [<- <-].
  destruct (parse_canonical _ _ Hp) as (HM & Hm & _).
  destruct (Atoi (minor ph)) as [k|] eqn:Ha; [|done].
  destruct (Atoi_digits _ _ (proj1 (proj2 Hm)) Ha) as [Hkv Hrange].
  inversion Hn; subst v. clear Hn. simpl in Hmax.
  assert (k = maxInt) as -> by lia.
  apply bool_decide_eq_false_2. intros [pv Hpv]. revert Hpv.
  unfold parse. simpl after. cbn [mbind option_bind].
  rewrite (parseInt_Some_2 (major ph) _ HM) by done.
  cbn [mbind option_bind]. rewrite bool_decide_eq_false_2 by done.
  simpl after. by vm_compute.
Qed.

End TagFacts.

Section TagTheorems.
Import Go Semver Gerrit TagX.

Lemma fake_tag_consistent g g' project tag commit :
  fakeTag g project tag commit = (g', None) →
  tag_recorded g g' project tag commit.
Proof.
  unfold fakeTag. destruct (fakeLookup (fake_tags g) project tag) eqn:E; [done|].
  intros [= <-] tags Htags. simpl in Htags. unfold fakeListTags in Htags.
  inversion Htags; subst tags. clear Htags.
  eexists. split; [done|]. split.
  - intros t. simpl. rewrite filter_app, fmap_app, elem_of_app.
    rewrite filter_cons_True by done. rewrite filter_nil. simpl.
    by rewrite list_elem_of_singleton.
  - simpl. unfold fakeGetTag, fakeLookup in *. simpl.
    apply fmap_None in E. rewrite list_find_app_r by done. simpl.
    rewrite decide_True by done. done.
Qed.

#[global] Instance fake_consistent : Consistent Fake.
Proof. constructor. apply fake_tag_consistent. Qed.

Lemma Compare_le_key t h kt kh :
  releaseKey t = Some kt → releaseKey h = Some kh →
  (Compare t h ≤ 0)%Z ↔ ¬ lexlt kh kt.
Proof.
  intros Ht Hh. destruct (Compare_release t h kt kh Ht Hh) as (_ & _ & H3).
  rewrite <- H3. lia.
Qed.

End TagTheorems.

Import Go Semver Gerrit TagX.

(** X7: from a release tag, [nextMinor] (when it succeeds and what it
    writes is a valid version) gives a release with the same major number,
    the minor number plus one and patch 0; it compares above the tag it was
    made from, and above every release that the tag is not below. *)
Theorem nextMinor_next_release (h v : string) :
  IsValid h = true → Prerelease h = "" →
  nextMinor h = Ok v → IsValid v = true →
  Prerelease v = "" ∧
  (∃ kh, releaseKey h = Some kh ∧
         releaseKey v = Some (kh.1.1, (kh.1.2 + 1)%N, 0%N)) ∧
  (Compare h v < 0)%Z ∧
  ∀ t, IsValid t = true → Prerelease t = "" → (Compare t h ≤ 0)%Z →
       (Compare t v < 0)%Z.
Proof.
  intros Hv Hp Hn Hvv.
  destruct (proj2 (releaseKey_candidate h) (conj Hv Hp)) as [kh Hkh].
  assert (Z.of_N kh.1.2 < maxInt)%Z as Hlt.
  { destruct (decide (Z.of_N kh.1.2 = maxInt)) as [He|Hne].
    - rewrite (nextMinor_overflow h kh v Hkh Hn He) in Hvv. done.
    - assert (Z.of_N kh.1.2 ≤ maxInt)%Z; [|lia].
      unfold releaseKey in Hkh. unfold nextMinor in Hn.
      destruct (parse h) as [ph|] eqn:Hph; [|done].
      case_bool_decide; [|done]. inversion Hkh; subst kh. simpl.
      destruct (majorMinorRestRe h) as [[M m]|] eqn:Hre; [|done].
      destruct (majorMinorRestRe_parse _ _ _ _ Hph Hre) as [<- <-].
      destruct (parse_canonical _ _ Hph) as (_ & Hm & _).
      destruct (Atoi (minor ph)) as [k|] eqn:Ha; [|done].
      destruct (Atoi_digits _ _ (proj1 (proj2 Hm)) Ha) as [-> Hrange]. lia. }
  destruct (nextMinor_release h kh v Hkh Hn Hlt) as [Hkv _].
  destruct (proj1 (releaseKey_candidate v)) as [_ Hpv]; [eauto|].
  assert (lexlt kh (kh.1.1, (kh.1.2 + 1)%N, 0%N)) as Hup.
  { unfold lexlt. simpl. lia. }
  split_and!; [done | eauto | |].
  - by apply (Compare_release h v _ _ Hkh Hkv).
  - intros t Ht Hpt Hle.
    destruct (proj2 (releaseKey_candidate t) (conj Ht Hpt)) as [kt Hkt].
    apply (Compare_release t v _ _ Hkt Hkv).
    apply (Compare_le_key t h kt kh Hkt Hkh) in Hle.
    revert Hle Hup. unfold lexlt. simpl. lia.
Qed.

Lemma nextMinor_next_release_witness :
  nextMinor "v1.4.2" = Ok "v1.5.0" ∧
  Prerelease "v1.5.0" = "" ∧
  (Compare "v1.4.2" "v1.5.0" < 0)%Z ∧
  (Compare "v1.4.2+build" "v1.5.0" < 0)%Z.
Proof.
  destruct (nextMinor_next_release "v1.4.2" "v1.5.0") as (H1 & _ & H3 & H4);
    [by vm_compute..|].
  split_and!; [by vm_compute | exact H1 | exact H3 |].
  apply H4; by vm_compute.
Defined.

(** X8: [nextMinor] rejects the short forms vMAJOR and vMAJOR.MINOR, which
    the semver package accepts as valid versions, with the malformatted
    version error. *)
Theorem nextMinor_rejects_short_forms (h : string) (ph : parsed) :
  parse h = Some ph → short ph ≠ "" →
  IsValid h = true ∧ Prerelease h = "" ∧ nextMinor h = Err (ErrMalformatted h).
Proof.
  intros Hp Hs. split_and!.
  - unfold IsValid. apply bool_decide_eq_true_2. eauto.
  - unfold Prerelease. rewrite Hp. revert Hp Hs. unfold parse. intros Hp Hs.
    destruct (after "v" h) as [s|]; [|done]. simpl in Hp.
    destruct (parseInt s) as [[ma v2]|]; [|done]. simpl in Hp.
    case_bool_decide; [by inversion Hp|].
    destruct (after "." v2) as [s2|]; [|done]. simpl in Hp.
    destruct (parseInt s2) as [[mi v4]|]; [|done]. simpl in Hp.
    case_bool_decide; [by inversion Hp|].
    destruct (after "." v4) as [rest|]; [|done]. simpl in Hp.
    destruct (parseInt rest) as [[pa v6]|]; [|done]. simpl in Hp.
    destruct (if bool_decide (is_Some (after "-" v6)) then parsePrerelease v6
              else Some ("", v6)) as [[pre v7]|]; [|done]. simpl in Hp.
    destruct (if bool_decide (is_Some (after "+" v7)) then parseBuild v7
              else Some ("", v7)) as [[bu v8]|]; [|done]. simpl in Hp.
    case_bool_decide; [|done]. inversion Hp; subst ph. done.
  - unfold nextMinor. by rewrite (majorMinorRestRe_short h ph Hp Hs).
Qed.

Lemma nextMinor_rejects_short_forms_witness :
  IsValid "v1.2" = true ∧ Prerelease "v1.2" = "" ∧
  nextMinor "v1.2" = Err (ErrMalformatted "v1.2").
Proof.
  apply (nextMinor_rejects_short_forms "v1.2" (mkParsed "1" "2" "0" ".0" "" ""));
    by vm_compute.
Defined.

(** X9: the tag [MaybeTag] selects. [highestRelease] is "" exactly when no
    tag is a valid version without prerelease; otherwise it is such a tag
    of the list and no such tag of the list compares above it. *)
Theorem highestRelease_is_maximum (tags : list string) :
  (highestRelease tags = "" ↔
   ∀ t, t ∈ tags → ¬ (IsValid t = true ∧ Prerelease t = "")) ∧
  (highestRelease tags ≠ "" →
   highestRelease tags ∈ tags ∧
   IsValid (highestRelease tags) = true ∧ Prerelease (highestRelease tags) = "" ∧
   ∀ t, t ∈ tags → IsValid t = true → Prerelease t = "" →
        (Compare t (highestRelease tags) ≤ 0)%Z).
Proof.
  destruct (highestRelease_spec tags) as [Hnil Hne]. simpl in *. split.
  - rewrite Hnil. split.
    + intros H t Ht Hc. apply releaseKey_candidate in Hc as [k Hk].
      rewrite (H t Ht) in Hk. done.
    + intros H t Ht. destruct (releaseKey t) as [k|] eqn:E; [|done].
      exfalso. apply (H t Ht). apply releaseKey_candidate. eauto.
  - intros H. destruct (Hne H) as (Hin & kh & Hkh & Hmax).
    destruct (proj1 (releaseKey_candidate _) (ex_intro _ kh Hkh)) as [Hv Hp].
    split_and!; try done.
    intros t Ht Hvt Hpt.
    destruct (proj2 (releaseKey_candidate t) (conj Hvt Hpt)) as [kt Hkt].
    apply (Compare_le_key t _ kt kh Hkt Hkh). by eapply Hmax.
Qed.

(** X10: when the project lists no tag that is a valid version without
    prerelease (in particular when it has no tag), [MaybeTag] returns the
    no-semver-tags error with the zero repo; it reads no tag and creates
    none. A failure to list the tags is returned as it is. *)
Theorem MaybeTag_without_release `{Client G} (g : G) (repo : TagRepo)
    (commit : string) :
  match ListTags g (Name repo) with
  | Err e => MaybeTag g repo commit = (g, (zeroTagRepo, Some e))
  | Ok tags =>
      (∀ t, t ∈ tags → ¬ (IsValid t = true ∧ Prerelease t = "")) →
      MaybeTag g repo commit = (g, (zeroTagRepo, Some (ErrNoSemverTags tags)))
  end.
Proof.
  unfold MaybeTag. destruct (ListTags g (Name repo)) as [tags|e]; [|done].
  intros Hnone.
  apply (proj2 (proj1 (highestRelease_is_maximum tags))) in Hnone.
  by rewrite Hnone.
Qed.

(** X11: the decision of [MaybeTag] when the project has a release tag.
    It reads the highest one. If that tag is bound to the target commit,
    nothing is created and the repo is returned with that tag as Version.
    Otherwise, if [nextMinor] succeeds, exactly one tag is requested, the
    next minor version at the target commit, and the repo is returned with
    it as Version together with the outcome of the request; if [nextMinor]
    fails, or the tag cannot be read, an error is returned and nothing is
    created. *)
Theorem MaybeTag_decision `{Client G} (g : G) (repo : TagRepo)
    (commit : string) (tags : list string) (t : string) :
  ListTags g (Name repo) = Ok tags →
  t ∈ tags → IsValid t = true → Prerelease t = "" →
  let h := highestRelease tags in
  h ∈ tags ∧ IsValid h = true ∧ Prerelease h = "" ∧ (Compare t h ≤ 0)%Z ∧
  match GetTag g (Name repo) h with
  | Err e =>
      MaybeTag g repo commit
      = (g, (zeroTagRepo, Some (ErrReadingTag (Name repo) h e)))
  | Ok revision =>
      (revision = commit →
       MaybeTag g repo commit = (g, (withVersion repo h, None))) ∧
      (revision ≠ commit →
       match nextMinor h with
       | Ok v =>
           MaybeTag g repo commit
           = ((Tag g (Name repo) v commit).1,
              (withVersion repo v, (Tag g (Name repo) v commit).2))
       | Err e =>
           MaybeTag g repo commit
           = (g, (zeroTagRepo, Some (ErrPickNextVersion (Name repo) e)))
       end)
  end.
Proof.
  intros Hl Ht Hv Hp h.
  destruct (highestRelease_is_maximum tags) as [Hnil Hne]. fold h in Hnil, Hne.
  assert (h ≠ "") as Hh.
  { intros He. by apply (proj1 Hnil He t Ht). }
  destruct (Hne Hh) as (H1 & H2 & H3 & H4).
  split_and!; [done | done | done | by apply H4 |].
  unfold MaybeTag. rewrite Hl. fold h.
  rewrite bool_decide_eq_false_2 by done.
  destruct (GetTag g (Name repo) h) as [revision|e]; [|done].
  split.
  - intros ->. by rewrite bool_decide_eq_true_2.
  - intros Hr. rewrite bool_decide_eq_false_2 by done.
    destruct (nextMinor h) as [v|e]; [|done].
    by destruct (Tag g (Name repo) v commit).
Qed.

Lemma MaybeTag_decision_witness :
  let g := mkFake [("tools", "v0.1.0", "c1"); ("tools", "v0.2.0-pre.1", "c2");
                   ("tools", "v0.1.5", "c3"); ("mod", "v0.9.0", "c0")] [] in
  let tools := mkTagRepo "tools" "golang.org/x/tools" [] "" in
  highestRelease ["v0.1.0"; "v0.2.0-pre.1"; "v0.1.5"] = "v0.1.5" ∧
  MaybeTag g tools "c3" = (g, (withVersion tools "v0.1.5", None)) ∧
  MaybeTag g tools "c4"
  = (mkFake (fake_tags g ++ [("tools", "v0.2.0", "c4")]) [],
     (withVersion tools "v0.2.0", None)).
Proof.
  intros g tools.
  pose proof (MaybeTag_decision g tools "c3" ["v0.1.0"; "v0.2.0-pre.1"; "v0.1.5"]
                "v0.1.0" eq_refl ltac:(apply list_elem_of_here) eq_refl eq_refl)
    as (_ & _ & _ & _ & H3).
  pose proof (MaybeTag_decision g tools "c4" ["v0.1.0"; "v0.2.0-pre.1"; "v0.1.5"]
                "v0.1.0" eq_refl ltac:(apply list_elem_of_here) eq_refl eq_refl)
    as (_ & _ & _ & _ & H4).
  split_and!.
  - by vm_compute.
  - exact (proj1 H3 eq_refl).
  - exact (proj2 H4 ltac:(discriminate)).
Defined.

(** X12: on a server whose reads reflect its tags, a successful [MaybeTag]
    is not repeated: a second call with the same module and target commit
    (the version decided being a valid version) finds the tag bound to the
    target commit, creates nothing and returns the same repo without
    error. *)
Theorem MaybeTag_second_call_no_change `{Consistent G} (g g1 : G)
    (repo repo1 : TagRepo) (commit : string) :
  MaybeTag g repo commit = (g1, (repo1, None)) →
  IsValid (Version repo1) = true →
  MaybeTag g1 repo commit = (g1, (repo1, None)).
Proof.
  intros Hfirst Hvalid. pose proof Hfirst as Hcall. unfold MaybeTag in Hcall.
  destruct (ListTags g (Name repo)) as [tags|e] eqn:Hl; [|done].
  case_bool_decide as Hh; [done|].
  destruct (GetTag g (Name repo) (highestRelease tags)) as [revision|e] eqn:Hg;
    [|done].
  case_bool_decide as Hr.
  { inversion Hcall; subst. exact Hfirst. }
  destruct (nextMinor (highestRelease tags)) as [v|e] eqn:Hn; [|done].
  destruct (Tag g (Name repo) v commit) as [g' err] eqn:Ht.
  inversion Hcall; subst g' repo1 err. clear Hcall. simpl in Hvalid.
  destruct (tag_consistent _ _ _ _ _ Ht tags Hl) as (tags' & Hl' & Hmem & Hg').
  destruct (highestRelease_is_maximum tags) as [_ Hne].
  destruct (Hne Hh) as (Hin & Hv & Hp & Hmax).
  destruct (nextMinor_next_release _ _ Hv Hp Hn Hvalid) as (Hpv & _ & Hup & Habove).
  destruct (proj2 (releaseKey_candidate v) (conj Hvalid Hpv)) as [kv Hkv].
  assert (highestRelease tags' = v) as Hnew.
  { apply (highestRelease_strict_max tags' v kv); [apply Hmem; by right | done |].
    intros t kt Ht' Hne' Hkt.
    apply Hmem in Ht' as [Ht'|Ht']; [|done].
    destruct (proj1 (releaseKey_candidate t) (ex_intro _ kt Hkt)) as [Hvt Hpt].
    apply (Compare_release t v kt kv Hkt Hkv).
    apply Habove; [done | done | by apply Hmax]. }
  unfold MaybeTag. rewrite Hl', Hnew.
  rewrite bool_decide_eq_false_2 by (apply releaseKey_nonempty; eauto).
  rewrite Hg'. by rewrite bool_decide_eq_true_2.
Qed.

Lemma MaybeTag_second_call_no_change_witness :
  let g := mkFake [("tools", "v0.1.0", "c1"); ("tools", "v0.1.5", "c3")] [] in
  let g1 := mkFake [("tools", "v0.1.0", "c1"); ("tools", "v0.1.5", "c3");
                    ("tools", "v0.2.0", "c4")] [] in
  let tools := mkTagRepo "tools" "golang.org/x/tools" [] "" in
  MaybeTag g tools "c4" = (g1, (withVersion tools "v0.2.0", None)) ∧
  MaybeTag g1 tools "c4" = (g1, (withVersion tools "v0.2.0", None)).
Proof.
  intros g g1 tools.
  assert (MaybeTag g tools "c4" = (g1, (withVersion tools "v0.2.0", None))) as H1
    by (by vm_compute).
  split; [exact H1|].
  exact (MaybeTag_second_call_no_change g g1 tools _ "c4" H1 eq_refl).
Defined.

(** * Properties of the gopls release workflow *)

Section GoplsFacts.
Import Go Semver Gerrit Gopls.
#[local] Arguments String.append !_ _ / : simpl nomatch.

Lemma Split_nonempty s sep : Split s sep ≠ [].
Proof.
  destruct s as [|c s]; simpl; [done|].
  case_bool_decide; [done|]. by destruct (Split s sep).
Qed.

Lemma Split_single s sep :
  length (Split s sep) = 1 ↔ indexByte sep s = None.
Proof.
  induction s as [|c s IH]; simpl; [done|].
  case_bool_decide as Hc.
  - pose proof (Split_nonempty s sep). simpl.
    destruct (Split s sep); [done|]. simpl. split; [lia | done].
  - pose proof (Split_nonempty s sep) as Hne.
    destruct (Split s sep) as [|first others] eqn:E; [done|]. simpl in *.
    rewrite IH. destruct (indexByte sep s); simpl; split; done.
Qed.

Lemma Split_no_sep s sep : indexByte sep s = None → Split s sep = [s].
Proof.
  induction s as [|c s IH]; simpl; [done|].
  case_bool_decide; [done|].
  destruct (indexByte sep s); [done|]. intros _. by rewrite IH.
Qed.

Lemma Split_at_sep a b sep :
  indexByte sep a = None → Split (a +:+ String sep b) sep = a :: Split b sep.
Proof.
  induction a as [|c a IH]; simpl.
  - intros _. by rewrite bool_decide_eq_true_2.
  - case_bool_decide; [done|].
    destruct (indexByte sep a); [done|]. intros _. by rewrite IH.
Qed.

Lemma Split_cases s sep :
  indexByte sep s = None ∨
  ∃ a b, s = a +:+ String sep b ∧ indexByte sep a = None.
Proof.
  induction s as [|c s IH]; simpl; [by left|].
  case_bool_decide as Hc.
  - subst c. right. by exists "", s.
  - destruct IH as [->|(a & b & -> & Ha)]; [by left|].
    right. exists (String c a), b. split; [done|]. simpl.
    rewrite bool_decide_eq_false_2 by done. by rewrite Ha.
Qed.

Lemma Split_pair s sep a b :
  Split s sep = [a; b] ↔
  s = a +:+ String sep b ∧ indexByte sep a = None ∧ indexByte sep b = None.
Proof.
  split.
  - intros H. destruct (Split_cases s sep) as [Hn|(a' & b' & -> & Ha')].
    + rewrite (Split_no_sep _ _ Hn) in H. done.
    + rewrite (Split_at_sep _ _ _ Ha') in H. injection H as -> Hb.
      assert (indexByte sep b' = None) as Hb'.
      { apply Split_single. by rewrite Hb. }
      rewrite (Split_no_sep _ _ Hb') in Hb. by injection Hb as ->.
  - intros (-> & Ha & Hb). by rewrite (Split_at_sep _ _ _ Ha), (Split_no_sep _ _ Hb).
Qed.

Lemma allDigits_no_dot s : allDigits s = true → indexByte "." s = None.
Proof.
  induction s as [|c s IH]; simpl; [done|].
  intros [Hc Hs]%andb_prop. case_bool_decide as Hd.
  - subst c. by vm_compute in Hc.
  - by rewrite (IH Hs).
Qed.

Lemma Atoi_pretty (n : N) :
  (Z.of_N n ≤ maxInt)%Z → Atoi (pretty n) = Some (Z.of_N n).
Proof.
  intros Hn. destruct (pretty_N_canonical n) as [(Hne & Hd & _) Hv].
  unfold Atoi. destruct (pretty n) as [|c s] eqn:E; [done|].
  pose proof Hd as Hd'. cbn [allDigits] in Hd'. apply andb_prop in Hd' as [Hc _].
  destruct (after_digit_sign c s Hc) as [E1 E2]. rewrite E1, E2, Hd.
  rewrite (bool_decide_eq_false_2 (String c s = "")) by done.
  rewrite (bool_decide_eq_false_2 (is_Some (@None string))) by (by intros [? ?]).
  cbn [negb orb]. rewrite Hv. rewrite bool_decide_eq_true_2; [done|].
  unfold minInt. lia.
Qed.

(** A pre-release token is read as [n] exactly when it is two dot-free
    parts joined by one dot, the second of which [Atoi] reads as the
    positive number [n]. *)
Lemma prereleaseVersion_Ok s n :
  prereleaseVersion s = Ok n ↔
  ∃ a b, Pre s = a +:+ String "." b ∧
         indexByte "." a = None ∧ indexByte "." b = None ∧
         Atoi b = Some n ∧ (0 < n)%Z.
Proof.
  unfold prereleaseVersion. split.
  - intros H. pose proof (Split_nonempty (Pre s) ".") as Hne.
    destruct (Split (Pre s) ".") as [|a [|b [|c l]]] eqn:E; simpl in H; try done.
    apply Split_pair in E as (E & Ha & Hb).
    destruct (Atoi b) as [pre|] eqn:Hat; [|done].
    destruct (pre <=? 0)%Z eqn:Hle; [done|]. inversion H; subst pre.
    apply Z.leb_gt in Hle. by exists a, b.
  - intros (a & b & E & Ha & Hb & Hat & Hpos).
    rewrite (proj2 (Split_pair (Pre s) "." a b)) by done. simpl.
    rewrite Hat. by rewrite (proj2 (Z.leb_gt n 0)).
Qed.

Lemma prereleaseVersion_no_dot s :
  indexByte "." (Pre s) = None → prereleaseVersion s = Err ErrPreNoDot.
Proof.
  intros H. unfold prereleaseVersion. by rewrite (Split_no_sep _ _ H).
Qed.

(** *** The largest pre-release number *)

Section Max.
Variable Sscanf : string → Z * Z * Z * bool.
Variable semv : semversion.

Lemma tagOrdinal_pos tag n : tagOrdinal Sscanf semv tag = Some n → (0 < n)%Z.
Proof.
  unfold tagOrdinal. destruct (CutPrefix tag "gopls/") as [v|]; [|done].
  destruct (parseSemver Sscanf v) as [cur ok]. destruct ok; simpl; [|done].
  destruct (_ || _); [done|].
  destruct (prereleaseVersion cur) as [pre|] eqn:E; [|done].
  intros [= <-]. apply prereleaseVersion_Ok in E as (? & ? & ? & ? & ? & ? & ?). done.
Qed.

Lemma foldl_keepMax tags : ∀ acc,
  let m := foldl (keepMax Sscanf semv) acc tags in
  (acc ≤ m)%Z ∧
  (m = acc ∨ ∃ tag, tag ∈ tags ∧ tagOrdinal Sscanf semv tag = Some m) ∧
  ∀ tag n, tag ∈ tags → tagOrdinal Sscanf semv tag = Some n → (n ≤ m)%Z.
Proof.
  induction tags as [|t tags IH]; intros acc; simpl.
  - split_and!; [lia | by left | by intros ? ? ?%elem_of_nil].
  - destruct (IH (keepMax Sscanf semv acc t)) as (H1 & H2 & H3).
    set (m := foldl (keepMax Sscanf semv) (keepMax Sscanf semv acc t) tags) in *.
    assert ((acc ≤ keepMax Sscanf semv acc t)%Z ∧
            (keepMax Sscanf semv acc t = acc
             ∨ tagOrdinal Sscanf semv t = Some (keepMax Sscanf semv acc t)) ∧
            ∀ n, tagOrdinal Sscanf semv t = Some n →
                 (n ≤ keepMax Sscanf semv acc t)%Z) as (K1 & K2 & K3).
    { unfold keepMax. destruct (tagOrdinal Sscanf semv t) as [pre|] eqn:Et.
      - destruct (acc <? pre)%Z eqn:Elt.
        + apply Z.ltb_lt in Elt. split_and!; [lia | by right |].
          intros n [= <-]. lia.
        + apply Z.ltb_ge in Elt. split_and!; [lia | by left |].
          intros n [= <-]. lia.
      - split_and!; [lia | by left | done]. }
    clearbody m. split_and!.
    + lia.
    + destruct H2 as [->|(tag & Hin & Ho)].
      * destruct K2 as [->|K2]; [by left|].
        right. exists t. split; [apply list_elem_of_here | done].
      * right. exists tag. split; [by apply list_elem_of_further | done].
    + intros tag n [->|Hin]%elem_of_cons Hn.
      * specialize (K3 n Hn). lia.
      * by eapply H3.
Qed.

Lemma foldl_keepMax_Permutation tags tags' :
  tags ≡ₚ tags' →
  foldl (keepMax Sscanf semv) 0%Z tags = foldl (keepMax Sscanf semv) 0%Z tags'.
Proof.
  intros Hp.
  destruct (foldl_keepMax tags 0%Z) as (H1 & H2 & H3).
  destruct (foldl_keepMax tags' 0%Z) as (H1' & H2' & H3').
  simpl in *. apply Z.le_antisymm.
  - destruct H2 as [->|(tag & Hin & Ho)]; [done|].
    apply (H3' tag); [by rewrite <- Hp | done].
  - destruct H2' as [->|(tag & Hin & Ho)]; [done|].
    apply (H3 tag); [by rewrite Hp | done].
Qed.

End Max.

(** The token "pre.N" is read back as N. *)
Lemma prereleaseVersion_pre_token major minor patch (n : Z) :
  (0 < n ≤ maxInt)%Z →
  prereleaseVersion (mkSemversion major minor patch ("pre." +:+ formatInt n)) = Ok n.
Proof.
  intros Hn. apply prereleaseVersion_Ok. exists "pre", (formatInt n).
  rewrite formatInt_nonneg by lia.
  destruct (pretty_N_canonical (Z.to_N n)) as [(_ & Hd & _) _].
  split_and!; [done | done | by apply allDigits_no_dot | | lia].
  rewrite Atoi_pretty by lia. f_equal. lia.
Qed.

Lemma indexByte_app c a b :
  indexByte c (a +:+ b) = None ↔ indexByte c a = None ∧ indexByte c b = None.
Proof.
  induction a as [|x a IH]; simpl; [naive_solver|].
  case_bool_decide; [naive_solver|].
  destruct (indexByte c (a +:+ b)), (indexByte c a); simpl; naive_solver.
Qed.

Lemma allDigits_no_dash s : allDigits s = true → indexByte "-" s = None.
Proof.
  induction s as [|c s IH]; simpl; [done|].
  intros [Hc Hs]%andb_prop. case_bool_decide as Hd.
  - subst c. by vm_compute in Hc.
  - by rewrite (IH Hs).
Qed.

Lemma formatInt_no_dash (z : Z) : (0 ≤ z)%Z → indexByte "-" (formatInt z) = None.
Proof.
  intros Hz. rewrite formatInt_nonneg by done.
  destruct (pretty_N_canonical (Z.to_N z)) as [(_ & Hd & _) _].
  by apply allDigits_no_dash.
Qed.

Lemma versionString_no_dash semv :
  (0 ≤ Major semv)%Z → (0 ≤ Minor semv)%Z → (0 ≤ Patch semv)%Z →
  indexByte "-" (versionString semv) = None.
Proof.
  intros H1 H2 H3. unfold versionString.
  repeat (apply indexByte_app; split); try done; by apply formatInt_no_dash.
Qed.

Lemma Cut_at_sep a b sep :
  indexByte sep a = None → Cut (a +:+ String sep b) sep = (a, b, true).
Proof.
  induction a as [|c a IH]; simpl.
  - intros _. by rewrite bool_decide_eq_true_2.
  - case_bool_decide; [done|].
    destruct (indexByte sep a); [done|]. intros _. by rewrite IH.
Qed.

Lemma CutPrefix_app prefix s : CutPrefix (prefix +:+ s) prefix = Some s.
Proof.
  induction prefix as [|c prefix IH]; simpl; [by destruct s|].
  by rewrite bool_decide_eq_true_2.
Qed.

End GoplsFacts.

Import Gopls Examples.

(** X13: [prereleaseVersion] reads the number [n] from a pre-release token
    exactly when the token is two parts without a dot joined by one dot
    and [Atoi] reads the second part as the positive number [n]; the first
    part is not looked at. A token without a dot (the empty token too) is
    refused with the no-dot error. *)
Theorem prereleaseVersion_reads (s : semversion) :
  (∀ n, prereleaseVersion s = Ok n ↔
        ∃ a b, Pre s = a +:+ String "." b ∧
               indexByte "." a = None ∧ indexByte "." b = None ∧
               Atoi b = Some n ∧ (0 < n)%Z) ∧
  (indexByte "." (Pre s) = None → prereleaseVersion s = Err ErrPreNoDot).
Proof.
  split; [intros n; apply prereleaseVersion_Ok | apply prereleaseVersion_no_dot].
Qed.

Lemma prereleaseVersion_reads_witness :
  prereleaseVersion (mkSemversion 1 2 0 "rc.7") = Ok 7%Z ∧
  prereleaseVersion (mkSemversion 1 2 0 "pre") = Err ErrPreNoDot.
Proof.
  destruct (prereleaseVersion_reads (mkSemversion 1 2 0 "rc.7")) as [H1 _].
  destruct (prereleaseVersion_reads (mkSemversion 1 2 0 "pre")) as [_ H2].
  split.
  - apply H1. exists "rc", "7". by vm_compute.
  - apply H2. by vm_compute.
Defined.

(** X14: [currentGoplsPrerelease] returns the largest pre-release number
    among the listed tags that count for the version (prefix gopls/, same
    major, minor and patch, readable pre-release number), and 0 exactly
    when no tag counts; the numbers that count are positive, and the order
    in which the server lists the tags does not matter. *)
Theorem currentGoplsPrerelease_maximum (Sscanf : string → Z * Z * Z * bool)
    `{Client G} (g g' : G) (semv : semversion) (tags tags' : list string) :
  ListTags g "tools" = Ok tags →
  ListTags g' "tools" = Ok tags' → tags' ≡ₚ tags →
  ∃ m, currentGoplsPrerelease Sscanf g semv = Ok m ∧
       currentGoplsPrerelease Sscanf g' semv = Ok m ∧
       (∀ tag n, tag ∈ tags → tagOrdinal Sscanf semv tag = Some n →
                 (0 < n ≤ m)%Z) ∧
       (m = 0%Z ∧ (∀ tag, tag ∈ tags → tagOrdinal Sscanf semv tag = None)
        ∨ (0 < m)%Z ∧ ∃ tag, tag ∈ tags ∧ tagOrdinal Sscanf semv tag = Some m).
Proof.
  intros Hl Hl' Hp. unfold currentGoplsPrerelease. rewrite Hl, Hl'.
  exists (foldl (keepMax Sscanf semv) 0%Z tags).
  destruct (foldl_keepMax Sscanf semv tags 0%Z) as (H1 & H2 & H3). simpl in *.
  split_and!; [done | by rewrite (foldl_keepMax_Permutation _ _ _ _ Hp) | |].
  - intros tag n Hin Hn. split; [by eapply tagOrdinal_pos | by eapply H3].
  - destruct H2 as [H2|(tag & Hin & Ho)].
    + left. split; [done|]. intros tag Hin.
      destruct (tagOrdinal Sscanf semv tag) as [n|] eqn:E; [|done]. exfalso.
      pose proof (tagOrdinal_pos _ _ _ _ E). specialize (H3 _ _ Hin E). lia.
    + right. split; [by eapply tagOrdinal_pos | eauto].
Qed.

Lemma currentGoplsPrerelease_maximum_witness :
  let g := mkFake [("tools", "gopls/v1.2.0-pre.1", "c1");
                   ("tools", "gopls/v1.2.0-pre.3", "c3");
                   ("tools", "gopls/v1.3.0-pre.9", "c9");
                   ("tools", "v1.2.0-pre.5", "c5")] [] in
  let g' := mkFake [("tools", "v1.2.0-pre.5", "c5");
                    ("tools", "gopls/v1.2.0-pre.3", "c3");
                    ("tools", "gopls/v1.3.0-pre.9", "c9");
                    ("tools", "gopls/v1.2.0-pre.1", "c1")] [] in
  currentGoplsPrerelease plainScan g (mkSemversion 1 2 0 "") = Ok 3%Z ∧
  currentGoplsPrerelease plainScan g' (mkSemversion 1 2 0 "") = Ok 3%Z.
Proof.
  intros g g'.
  destruct (currentGoplsPrerelease_maximum plainScan g g' (mkSemversion 1 2 0 "")
              ["gopls/v1.2.0-pre.1"; "gopls/v1.2.0-pre.3"; "gopls/v1.3.0-pre.9";
               "v1.2.0-pre.5"]
              ["v1.2.0-pre.5"; "gopls/v1.2.0-pre.3"; "gopls/v1.3.0-pre.9";
               "gopls/v1.2.0-pre.1"] ltac:(by vm_compute) ltac:(by vm_compute))
    as (m & H1 & H2 & _).
  - apply (bool_decide_unpack _). by vm_compute.
  - assert (m = 3%Z) as -> by (vm_compute in H1; congruence).
    split; [exact H1 | exact H2].
Defined.

(** X15: the token [nextPrerelease] proposes is "pre." followed by the
    current pre-release number plus one (below the largest int), hence at
    least "pre.1", and [prereleaseVersion] reads that number back from
    it. *)
Theorem nextPrerelease_successor (Sscanf : string → Z * Z * Z * bool)
    `{Client G} (g : G) (semv : semversion) (m : Z) :
  currentGoplsPrerelease Sscanf g semv = Ok m → (m < maxInt)%Z →
  nextPrerelease Sscanf g semv = Ok ("pre." +:+ formatInt (m + 1)) ∧
  (1 ≤ m + 1)%Z ∧
  prereleaseVersion
    (mkSemversion (Major semv) (Minor semv) (Patch semv)
                  ("pre." +:+ formatInt (m + 1)))
  = Ok (m + 1)%Z.
Proof.
  intros Hc Hm.
  assert (0 ≤ m)%Z as H0.
  { unfold currentGoplsPrerelease in Hc.
    destruct (ListTags g "tools") as [tags|]; [|done]. inversion Hc; subst m.
    by destruct (foldl_keepMax Sscanf semv tags 0%Z) as (H1 & _). }
  split_and!; [|lia|].
  - unfold nextPrerelease. rewrite Hc.
    rewrite wrap64_small; [done | unfold minInt, maxInt in *; lia].
  - apply prereleaseVersion_pre_token. lia.
Qed.

Lemma nextPrerelease_successor_witness :
  let g := mkFake [("tools", "gopls/v1.2.0-pre.1", "c1");
                   ("tools", "gopls/v1.2.0-pre.3", "c3")] [] in
  nextPrerelease plainScan g (mkSemversion 1 2 0 "") = Ok "pre.4" ∧
  prereleaseVersion (mkSemversion 1 2 0 "pre.4") = Ok 4%Z.
Proof.
  intros g.
  destruct (nextPrerelease_successor plainScan g (mkSemversion 1 2 0 "") 3)
    as (H1 & _ & H3); [by vm_compute | by vm_compute |].
  split; [exact H1 | exact H3].
Defined.

(** X16: [isValidPrereleaseVersion] accepts a version exactly when: it is
    valid semver; [parseSemver] reads it, with a non-empty pre-release
    token whose number [prereleaseVersion] reads; the release tag
    gopls/vX.Y.Z is not listed; that number equals the current pre-release
    number; and the tag gopls/<version> is bound to the head of the release
    branch. A number below the current one and a number above it are
    refused with two different errors. *)
Theorem isValidPrereleaseVersion_accepts_iff (Sscanf : string → Z * Z * Z * bool)
    `{Client G} (g : G) (version : string) (semv : semversion) :
  (isValidPrereleaseVersion Sscanf g version = Ok semv ↔
   IsValid version = true ∧
   parseSemver Sscanf version = (semv, true) ∧
   Pre semv ≠ "" ∧
   ∃ pre tags head,
     prereleaseVersion semv = Ok pre ∧
     ListTags g "tools" = Ok tags ∧
     (("gopls/" +:+ versionString semv) ∉ tags) ∧
     currentGoplsPrerelease Sscanf g semv = Ok pre ∧
     ReadBranchHead g "tools" (goplsReleaseBranchName semv) = Ok head ∧
     GetTag g "tools" ("gopls/" +:+ version) = Ok head) ∧
  (∀ pre tags current,
     IsValid version = true → parseSemver Sscanf version = (semv, true) →
     Pre semv ≠ "" → prereleaseVersion semv = Ok pre →
     ListTags g "tools" = Ok tags → ("gopls/" +:+ versionString semv) ∉ tags →
     currentGoplsPrerelease Sscanf g semv = Ok current →
     ((pre < current)%Z →
      isValidPrereleaseVersion Sscanf g version
      = Err (ErrNewerPrerelease (Major semv) (Minor semv) (Patch semv) current)) ∧
     ((current < pre)%Z →
      isValidPrereleaseVersion Sscanf g version
      = Err (ErrNotYetAvailable version (Major semv) (Minor semv) (Patch semv)
               current))).
Proof.
  split; [split|].
  - unfold isValidPrereleaseVersion. intros Hv.
    destruct (IsValid version); simpl in Hv; [|done].
    destruct (parseSemver Sscanf version) as [semv0 ok]. destruct ok; simpl in Hv; [|done].
    case_bool_decide as Hpre; [done|].
    destruct (prereleaseVersion semv0) as [pre|] eqn:Ep; [|done].
    destruct (ListTags g "tools") as [tags|] eqn:El; [|done].
    case_bool_decide as Hrel; [done|].
    destruct (currentGoplsPrerelease Sscanf g semv0) as [current|] eqn:Ec; [|done].
    destruct (pre <? current)%Z eqn:E1; [done|].
    destruct (current <? pre)%Z eqn:E2; [done|].
    destruct (ReadBranchHead g "tools" (goplsReleaseBranchName semv0)) as [head|] eqn:Eh;
      [|done].
    destruct (GetTag g "tools" ("gopls/" +:+ version)) as [revision|] eqn:Eg; [|done].
    case_bool_decide as Hrev; [done|]. inversion Hv; subst semv0.
    subst revision.
    apply Z.ltb_ge in E1, E2. assert (current = pre) as -> by lia.
    split_and!; try done. by exists pre, tags, head.
  - intros (Hv & Hp & Hpre & pre & tags & head & Ep & El & Hrel & Ec & Eh & Eg).
    unfold isValidPrereleaseVersion. rewrite Hv, Hp. simpl.
    rewrite bool_decide_eq_false_2 by done. rewrite Ep, El.
    rewrite bool_decide_eq_false_2 by done. rewrite Ec.
    rewrite Z.ltb_irrefl, Eh, Eg.
    by rewrite bool_decide_eq_false_2 by (intros Hne; by apply Hne).
  - intros pre tags current Hv Hp Hpre Ep El Hrel Ec.
    unfold isValidPrereleaseVersion. rewrite Hv, Hp. simpl.
    rewrite bool_decide_eq_false_2 by done. rewrite Ep, El.
    rewrite bool_decide_eq_false_2 by done. rewrite Ec. split.
    + intros Hlt. by rewrite (proj2 (Z.ltb_lt _ _) Hlt).
    + intros Hlt. rewrite (proj2 (Z.ltb_ge _ _)) by lia.
      by rewrite (proj2 (Z.ltb_lt _ _) Hlt).
Qed.

Lemma isValidPrereleaseVersion_accepts_iff_witness :
  let g := mkFake [("tools", "gopls/v1.2.0-pre.1", "c1");
                   ("tools", "gopls/v1.2.0-pre.3", "c3");
                   ("tools", "gopls/v1.1.0", "c0")]
                  [("tools", "gopls-release-branch.1.2", "c3")] in
  isValidPrereleaseVersion plainScan g "v1.2.0-pre.3"
    = Ok (mkSemversion 1 2 0 "pre.3") ∧
  isValidPrereleaseVersion plainScan g "v1.2.0-pre.1"
    = Err (ErrNewerPrerelease 1 2 0 3) ∧
  isValidPrereleaseVersion plainScan g "v1.2.0-pre.4"
    = Err (ErrNotYetAvailable "v1.2.0-pre.4" 1 2 0 3).
Proof.
  intros g. split_and!.
  - apply (isValidPrereleaseVersion_accepts_iff plainScan g "v1.2.0-pre.3"
             (mkSemversion 1 2 0 "pre.3")).
    split_and!; [by vm_compute | by vm_compute | done |].
    exists 3%Z, ["gopls/v1.2.0-pre.1"; "gopls/v1.2.0-pre.3"; "gopls/v1.1.0"], "c3".
    split_and!; try (by vm_compute).
    apply (bool_decide_unpack _). by vm_compute.
  - apply (proj2 (isValidPrereleaseVersion_accepts_iff plainScan g "v1.2.0-pre.1"
                    (mkSemversion 1 2 0 "pre.1")) 1%Z
             ["gopls/v1.2.0-pre.1"; "gopls/v1.2.0-pre.3"; "gopls/v1.1.0"] 3%Z);
      try (by vm_compute).
    apply (bool_decide_unpack _). by vm_compute.
  - apply (proj2 (isValidPrereleaseVersion_accepts_iff plainScan g "v1.2.0-pre.4"
                    (mkSemversion 1 2 0 "pre.4")) 4%Z
             ["gopls/v1.2.0-pre.1"; "gopls/v1.2.0-pre.3"; "gopls/v1.1.0"] 3%Z);
      try (by vm_compute).
    apply (bool_decide_unpack _). by vm_compute.
Defined.
